(** * clientmetric: client-side metrics, their registry and the logtail delta encoding

    A shallow embedding of [util/clientmetric/clientmetric.go].

    - Go [string]s are byte strings: they are modelled as [String.string]
      (a list of 8-bit [ascii] characters).
    - [int64] and the 64-bit Go [int] are [Z] with their wrap-around written
      out by [wrap64]; [uint64] is [Z] reduced modulo [2^64].
    - [time.Time] is a reading of the monotonic clock in nanoseconds; the
      zero [time.Time] (for which [IsZero] holds) is [None].
    - The package-level variables guarded by [mu] form the record [state].
      The Go map [metrics] is a list of metrics with pairwise distinct names;
      the order of the list stands for Go's unspecified map iteration order,
      and the step relation [step] may permute it between calls.
    - A [*Metric] that has been published is designated by its name (names
      are unique in the registry), so the cached [sorted] slice of pointers
      is a list of names and reads through it see the current values.
    - A Go panic is the [Panic] outcome of a small state/panic monad. *)

From Stdlib Require Import ZArith List String Ascii Lia Bool.
From Stdlib Require Import Permutation Sorted.
Import ListNotations.
Open Scope Z_scope.

(** ** Machine integers *)

Definition wrap64 (z : Z) : Z := (z + 2 ^ 63) mod 2 ^ 64 - 2 ^ 63.

Definition is_int64 (z : Z) : Prop := - 2 ^ 63 <= z < 2 ^ 63.

(** [time.Duration] is an int64 count of nanoseconds; [t.Sub(u)] saturates
    at the bounds of int64. *)
Definition Second : Z := 1000000000.
Definition Hour : Z := 3600 * Second.

Definition time_Sub (t u : Z) : Z :=
  let d := t - u in
  if d >? 2 ^ 63 - 1 then 2 ^ 63 - 1
  else if d <? - 2 ^ 63 then - 2 ^ 63
  else d.

(** ** Metric *)

Inductive Type_ := TypeGauge | TypeCounter.

Record Metric := mkMetric {
  v : Z;                    (* atomic; the metric value *)
  name : string;
  typ : Type_;
  wireID : Z;               (* zero until named *)
  lastNamed : option Z;     (* None is the zero time.Time *)
  lastLogVal : Z
}.

Definition Name (m : Metric) : string := name m.
Definition Value (m : Metric) : Z := v m.

(** [atomic.AddInt64] wraps around; [atomic.StoreInt64] stores. *)
Definition Add (n : Z) (m : Metric) : Metric :=
  mkMetric (wrap64 (v m + n)) (name m) (typ m) (wireID m) (lastNamed m) (lastLogVal m).

Definition Set_ (x : Z) (m : Metric) : Metric :=
  mkMetric x (name m) (typ m) (wireID m) (lastNamed m) (lastLogVal m).

(** ** Package state (the variables guarded by [mu]) *)

Record state := mkState {
  metrics : list Metric;
  numWireID : Z;            (* how many wireIDs have been allocated *)
  lastDelta : option Z;     (* time of last call to EncodeLogTailMetricsDelta *)
  sortedDirty : bool;       (* whether sorted needs to be rebuilt *)
  sorted : list string      (* by name *)
}.

Definition init_state : state := mkState [] 0 None false [].

Definition set_metrics (ms : list Metric) (st : state) : state :=
  mkState ms (numWireID st) (lastDelta st) (sortedDirty st) (sorted st).

(** ** A state/panic monad *)

Inductive outcome (A : Type) :=
| Ok (a : A) (st : state)
| Panic (msg : string) (st : state).
Arguments Ok {A} a st.
Arguments Panic {A} msg st.

Definition M (A : Type) := state -> outcome A.

Definition ret {A} (a : A) : M A := fun st => Ok a st.
Definition bind {A B} (m : M A) (k : A -> M B) : M B :=
  fun st => match m st with
            | Ok a st' => k a st'
            | Panic msg st' => Panic msg st'
            end.
Definition get : M state := fun st => Ok st st.
Definition put (st : state) : M unit := fun _ => Ok tt st.
Definition panic {A} (msg : string) : M A := fun st => Panic msg st.

Notation "x <- m ;; k" := (bind m (fun x => k))
  (at level 61, m at next level, right associativity).
Notation "m ;;; k" := (bind m (fun _ => k))
  (at level 61, right associativity).

(** ** Varints: [encoding/binary] *)

Definition MaxVarintLen64 : nat := 10.

(** [binary.PutUvarint]: base-128 groups, least significant first, with
    the continuation bit 0x80 on every byte but the last. The loop runs at
    most [MaxVarintLen64] times on a uint64. *)
Fixpoint PutUvarint_loop (fuel : nat) (x : Z) : list Z :=
  match fuel with
  | O => [Z.land x 255]
  | S fuel' =>
      if x >=? 128
      then Z.lor (Z.land x 255) 128 :: PutUvarint_loop fuel' (Z.shiftr x 7)
      else [Z.land x 255]
  end.

Definition PutUvarint (x : Z) : list Z := PutUvarint_loop MaxVarintLen64 x.

(** [binary.PutVarint]: [ux := uint64(x) << 1; if x < 0 { ux = ^ux }]. *)
Definition PutVarint (x : Z) : list Z :=
  let ux := Z.land (Z.shiftl (x mod 2 ^ 64) 1) (2 ^ 64 - 1) in
  let ux := if x <? 0 then Z.lxor ux (2 ^ 64 - 1) else ux in
  PutUvarint ux.

(** ** Hex: [encoding/hex] *)

Definition hextable : string := "0123456789abcdef".

Definition hex_char (i : Z) : ascii :=
  match String.get (Z.to_nat i) hextable with
  | Some c => c
  | None => "0"%char   (* unreachable: [i] is a nibble *)
  end.

Fixpoint hex_Encode (src : list Z) : string :=
  match src with
  | [] => EmptyString
  | b :: src' =>
      String (hex_char (Z.shiftr b 4)) (String (hex_char (Z.land b 15)) (hex_Encode src'))
  end.

(** ** deltaEncBuf: the record writers

    A [bytes.Buffer] is modelled as the string written so far; every
    writer appends. [writeHexVarint] encodes into the spare capacity of
    the buffer and then [Write]s that slice, which appends it. *)

Definition writeHexVarint (x : Z) (buf : string) : string :=
  (buf ++ hex_Encode (PutVarint x))%string.

Definition writeName (nm : string) (buf : string) : string :=
  let buf := (buf ++ "N")%string in
  let buf := writeHexVarint (Z.of_nat (String.length nm)) buf in
  (buf ++ nm)%string.

Definition writeValue (wid x : Z) (buf : string) : string :=
  let buf := (buf ++ "S")%string in
  let buf := writeHexVarint wid buf in
  writeHexVarint x buf.

Definition writeDelta (wid x : Z) (buf : string) : string :=
  let buf := (buf ++ "I")%string in
  let buf := writeHexVarint wid buf in
  writeHexVarint x buf.

(** ** EncodeLogTailMetricsDelta *)

Definition metricLogNameFrequency : Z := 4 * Hour.
Definition minMetricEncodeInterval : Z := 15 * Second.

(** One iteration of the loop over [metrics]: the loop-carried values are
    the lazily allocated buffer ([None] while [enc == nil]) and
    [numWireID]; the metric is returned with its bookkeeping updated. *)
Definition encode_metric (now : Z) (m : Metric) (enc : option string) (nw : Z)
  : Metric * option string * Z :=
  let val := Value m in
  let delta := wrap64 (val - lastLogVal m) in
  if delta =? 0 then (m, enc, nw) else
  let buf := match enc with Some b => b | None => EmptyString end in
  let '(nw, wid) := if wireID m =? 0
                    then let nw := wrap64 (nw + 1) in (nw, nw)
                    else (nw, wireID m) in
  let rename := match lastNamed m with
                | None => true
                | Some t => time_Sub now t >? metricLogNameFrequency
                end in
  if rename then
    let buf := writeName (Name m) buf in
    let buf := writeValue wid val buf in
    (mkMetric (v m) (name m) (typ m) wid (Some now) val, Some buf, nw)
  else
    let buf := writeDelta wid delta buf in
    (mkMetric (v m) (name m) (typ m) wid (lastNamed m) val, Some buf, nw).

Fixpoint encode_loop (now : Z) (ms : list Metric) (enc : option string) (nw : Z)
  : list Metric * option string * Z :=
  match ms with
  | [] => ([], enc, nw)
  | m :: ms' =>
      let '(m', enc, nw) := encode_metric now m enc nw in
      let '(ms'', enc, nw) := encode_loop now ms' enc nw in
      (m' :: ms'', enc, nw)
  end.

Definition rate_limited (now : Z) (ld : option Z) : bool :=
  match ld with
  | None => false
  | Some t => time_Sub now t <? minMetricEncodeInterval
  end.

(** [EncodeLogTailMetricsDelta], with [time.Now()] as the argument [now]. *)
Definition EncodeLogTailMetricsDelta (now : Z) : M string :=
  st <- get ;;
  if rate_limited now (lastDelta st) then ret EmptyString else
  let st := mkState (metrics st) (numWireID st) (Some now) (sortedDirty st) (sorted st) in
  let '(ms, enc, nw) := encode_loop now (metrics st) None (numWireID st) in
  put (mkState ms nw (lastDelta st) (sortedDirty st) (sorted st)) ;;;
  match enc with
  | None => ret EmptyString
  | Some buf => ret buf
  end.

(** ** Registry *)

(** [isIllegalMetricRune]. [strings.IndexFunc] decodes UTF-8: an ASCII
    byte is the rune of the same value, and a byte [>= 0x80] starts a rune
    [>= 0x80] (or [utf8.RuneError]), which is illegal. So the first illegal
    rune exists iff some byte, read as a rune value, is illegal; the byte
    index below stands for the rune's index, which only the panic message
    uses. *)
Definition isIllegalMetricRune (r : ascii) : bool :=
  let n := nat_of_ascii r in
  negb ((Nat.leb (nat_of_ascii "a") n && Nat.leb n (nat_of_ascii "z")) ||
        (Nat.leb (nat_of_ascii "A") n && Nat.leb n (nat_of_ascii "Z")) ||
        (Nat.leb (nat_of_ascii "0") n && Nat.leb n (nat_of_ascii "9")) ||
        Nat.eqb n (nat_of_ascii "_")).

Fixpoint IndexFunc_from (f : ascii -> bool) (s : string) (i : Z) : Z :=
  match s with
  | EmptyString => -1
  | String c s' => if f c then i else IndexFunc_from f s' (i + 1)
  end.

Definition IndexFunc (s : string) (f : ascii -> bool) : Z := IndexFunc_from f s 0.

Definition name_registered (nm : string) (ms : list Metric) : bool :=
  existsb (fun m => String.eqb (name m) nm) ms.

Fixpoint lookup (nm : string) (ms : list Metric) : option Metric :=
  match ms with
  | [] => None
  | m :: ms' => if String.eqb (name m) nm then Some m else lookup nm ms'
  end.

(** [Publish]: [metrics[m.name] = m] inserts a new key; its place in the
    list is irrelevant since the list order is the map's iteration order. *)
Definition Publish (m : Metric) : M unit :=
  st <- get ;;
  if String.eqb (name m) "" then panic "unnamed Metric" else
  if name_registered (name m) (metrics st)
  then panic ("duplicate metric " ++ name m)
  else put (mkState (metrics st ++ [m]) (numWireID st) (lastDelta st) true (sorted st)).

Definition NewUnpublished (nm : string) (t : Type_) : M Metric :=
  let i := IndexFunc nm isIllegalMetricRune in
  if String.eqb nm "" || negb (i =? -1)
  then panic "illegal metric name"
  else ret (mkMetric 0 nm t 0 None 0).

Definition NewCounter (nm : string) : M Metric :=
  m <- NewUnpublished nm TypeCounter ;;
  Publish m ;;;
  ret m.

Definition NewGauge (nm : string) : M Metric :=
  m <- NewUnpublished nm TypeGauge ;;
  Publish m ;;;
  ret m.

(** [sort.Slice] with [sorted[i].name < sorted[j].name]: Go compares
    strings bytewise, as [String.ltb] does. The names are pairwise
    distinct, so every correct sort gives the same result; an insertion
    sort stands for the library's algorithm. *)
Fixpoint insert_name (x : string) (l : list string) : list string :=
  match l with
  | [] => [x]
  | y :: l' => if String.ltb x y then x :: l else y :: insert_name x l'
  end.

Definition sort_names (l : list string) : list string :=
  fold_right insert_name [] l.

(** [Metrics] returns the cached slice; a [*Metric] is designated by its
    (unique) name. *)
Definition Metrics : M (list string) :=
  st <- get ;;
  if sortedDirty st then
    let srt := sort_names (map name (metrics st)) in
    put (mkState (metrics st) (numWireID st) (lastDelta st) false srt) ;;;
    ret srt
  else ret (sorted st).

(** ** Prometheus exposition *)

(** [fmt]'s [%v] of an int64: decimal, with a leading '-' when negative. *)
Fixpoint digits (fuel : nat) (n : Z) (acc : string) : string :=
  match fuel with
  | O => acc
  | S fuel' =>
      let d := String (ascii_of_nat (48 + Z.to_nat (n mod 10))) acc in
      if n <? 10 then d else digits fuel' (n / 10) d
  end.

Definition fmt_int (n : Z) : string :=
  if n <? 0 then String "-" (digits 20 (- n) EmptyString)
  else digits 20 n EmptyString.

Definition newline : string := String (ascii_of_nat 10) EmptyString.

Definition prom_lines (m : Metric) : string :=
  ((match typ m with
    | TypeGauge => "# TYPE " ++ Name m ++ " gauge" ++ newline
    | TypeCounter => "# TYPE " ++ Name m ++ " counter" ++ newline
    end) ++
   Name m ++ " " ++ fmt_int (Value m) ++ newline)%string.

(** [WritePrometheusExpositionFormat]: the result is what is written to
    [w]; each [*Metric] of the slice is read through the registry. *)
Definition WritePrometheusExpositionFormat : M string :=
  l <- Metrics ;;
  st <- get ;;
  ret (fold_left (fun out nm =>
                    match lookup nm (metrics st) with
                    | Some m => (out ++ prom_lines m)%string
                    | None => out
                    end) l EmptyString).

(** ** Executions of the package

    Callers publish metrics (constructing them with [NewUnpublished],
    possibly setting their value before [Publish]), change values with
    [Add] and [Set], call [Metrics], [WritePrometheusExpositionFormat] and
    [EncodeLogTailMetricsDelta] at arbitrary times, and Go's map iteration
    order may differ from one range loop to the next. A call that panics
    leaves the state unchanged and is not a step. *)

Definition update_metric (nm : string) (f : Metric -> Metric) (st : state) : state :=
  set_metrics (map (fun m => if String.eqb (name m) nm then f m else m) (metrics st)) st.

Inductive step : state -> state -> Prop :=
| step_publish st st' nm t x :
    is_int64 x ->
    (m <- NewUnpublished nm t ;; Publish (Set_ x m)) st = Ok tt st' ->
    step st st'
| step_add st nm n : is_int64 n -> step st (update_metric nm (Add n) st)
| step_set st nm x : is_int64 x -> step st (update_metric nm (Set_ x) st)
| step_metrics st st' l : Metrics st = Ok l st' -> step st st'
| step_write st st' out : WritePrometheusExpositionFormat st = Ok out st' -> step st st'
| step_encode st st' now out : EncodeLogTailMetricsDelta now st = Ok out st' -> step st st'
| step_reorder st ms : Permutation (metrics st) ms -> step st (set_metrics ms st).

Inductive reachable : state -> Prop :=
| reach_init : reachable init_state
| reach_step st st' : reachable st -> step st st' -> reachable st'.

(** ** The wire format as the documentation describes it

    The comment on [EncodeLogTailMetricsDelta] and the package
    documentation describe each record as a letter followed by hex-encoded
    signed varints: zigzag, then base-128 groups with a continuation bit,
    every byte written as two lowercase hex digits. These definitions
    follow that description, to be compared with the writers above. *)

Definition zigzag (x : Z) : Z := if 0 <=? x then 2 * x else - 2 * x - 1.

Inductive base128 : Z -> list Z -> Prop :=
| base128_last u : 0 <= u < 128 -> base128 u [u]
| base128_more u bs : 128 <= u -> base128 (u / 128) bs ->
    base128 u (128 + u mod 128 :: bs).

Definition lower_hex_digit (d : Z) : ascii :=
  ascii_of_nat (if d <? 10 then 48 + Z.to_nat d else 97 + Z.to_nat (d - 10)).

Fixpoint hex_spec (bs : list Z) : string :=
  match bs with
  | [] => EmptyString
  | b :: bs' => String (lower_hex_digit (b / 16)) (String (lower_hex_digit (b mod 16)) (hex_spec bs'))
  end.

Definition hex_varint (x : Z) (s : string) : Prop :=
  exists bs, base128 (zigzag x) bs /\ Forall (fun b => 0 <= b < 256) bs /\ s = hex_spec bs.

(** ** One encoder pass as the documentation describes it

    [delta_frame now n ms out ms' n']: scanning [ms] with [n] wireIDs
    allocated so far emits [out], leaves the metrics [ms'] and [n'] wireIDs
    allocated. A metric whose value equals its last sent value emits
    nothing; a changed metric that was never named or was last named more
    than [metricLogNameFrequency] ago gets a name record followed by a
    value record and is named [now] (taking the next wireID if it had none);
    any other changed metric gets one increment record carrying the int64
    difference. Every changed metric's last sent value becomes its value. *)

Definition int64_vals (m : Metric) : Prop := is_int64 (v m) /\ is_int64 (lastLogVal m).

Definition next_wireID (m : Metric) (n wid n1 : Z) : Prop :=
  (wireID m = 0 /\ wid = n + 1 /\ n1 = n + 1 /\ 0 < wid) \/
  (wireID m <> 0 /\ wid = wireID m /\ n1 = n).

(** The records of one metric, and its bookkeeping afterwards. *)
Inductive metric_record (now n : Z) (m : Metric) : string -> Metric -> Z -> Prop :=
| mr_unchanged :
    Value m = lastLogVal m ->
    metric_record now n m EmptyString m n
| mr_named wid n1 :
    Value m <> lastLogVal m ->
    (lastNamed m = None \/
     exists t, lastNamed m = Some t /\ now - t > metricLogNameFrequency) ->
    next_wireID m n wid n1 ->
    metric_record now n m
      (writeName (name m) EmptyString ++ writeValue wid (Value m) EmptyString)%string
      (mkMetric (v m) (name m) (typ m) wid (Some now) (Value m)) n1
| mr_increment t wid n1 :
    Value m <> lastLogVal m ->
    lastNamed m = Some t -> now - t <= metricLogNameFrequency ->
    next_wireID m n wid n1 ->
    metric_record now n m
      (writeDelta wid (wrap64 (Value m - lastLogVal m)) EmptyString)
      (mkMetric (v m) (name m) (typ m) wid (lastNamed m) (Value m)) n1.

(** The frame is the records of the metrics, in iteration order. *)
Inductive delta_frame (now : Z) : Z -> list Metric -> string -> list Metric -> Z -> Prop :=
| df_nil n : delta_frame now n [] EmptyString [] n
| df_cons n m ms r m' n1 out ms' n' :
    metric_record now n m r m' n1 ->
    delta_frame now n1 ms out ms' n' ->
    delta_frame now n (m :: ms) (r ++ out)%string (m' :: ms') n'.

Definition opt_buf (enc : option string) : string :=
  match enc with Some b => b | None => EmptyString end.

(** ** Registry invariant *)

(** Go compares strings bytewise. *)
Definition str_lt (a b : string) : Prop := String.ltb a b = true.

Definition valid_name (s : string) : Prop :=
  s <> EmptyString /\ IndexFunc s isIllegalMetricRune = -1.

(** Names are unique and valid, values are int64, and a clean cache is
    the registry's names in ascending order. *)
Definition Inv_registry (st : state) : Prop :=
  NoDup (map name (metrics st)) /\
  Forall (fun m => valid_name (name m)) (metrics st) /\
  Forall int64_vals (metrics st) /\
  (sortedDirty st = false ->
   Sorted str_lt (sorted st) /\ Permutation (sorted st) (map name (metrics st))).

(** ** The exposition format as documented: per metric, a type line and
    a value line. *)

Definition type_word (t : Type_) : string :=
  match t with TypeGauge => "gauge" | TypeCounter => "counter" end.

Definition exposition_lines (m : Metric) : string :=
  ("# TYPE " ++ name m ++ " " ++ type_word (typ m) ++ newline ++
   name m ++ " " ++ fmt_int (v m) ++ newline)%string.

Fixpoint concat_str (l : list string) : string :=
  match l with [] => EmptyString | s :: l' => (s ++ concat_str l')%string end.

(** ** Metric names as documented: non-empty, over [A-Za-z0-9_] *)

Definition legal_char (c : ascii) : Prop :=
  let n := nat_of_ascii c in
  (65 <= n <= 90)%nat \/ (97 <= n <= 122)%nat \/ (48 <= n <= 57)%nat \/ n = 95%nat.

Definition documented_name (s : string) : Prop :=
  s <> EmptyString /\ Forall legal_char (list_ascii_of_string s).

(** Construct-then-register through the public constructors. *)
Definition NewMetric (t : Type_) (nm : string) : M Metric :=
  match t with TypeCounter => NewCounter nm | TypeGauge => NewGauge nm end.

Definition is_panic {A} (o : outcome A) : bool :=
  match o with Panic _ _ => true | Ok _ _ => false end.

(** ** The frame alphabet as documented *)

Definition lower_hex_digits : string := "0123456789abcdef".

Definition frame_char (c : ascii) : Prop :=
  c = "N"%char \/ c = "S"%char \/ c = "I"%char \/
  In c (list_ascii_of_string lower_hex_digits) \/ legal_char c.

(** Safe inside a JSON string literal: not a double quote (34), not a
    backslash (92), not a control character (below 32, or 127). *)
Definition json_safe_char (c : ascii) : Prop :=
  let n := nat_of_ascii c in
  n <> 34%nat /\ n <> 92%nat /\ (32 <= n)%nat /\ n <> 127%nat.

(** ** Wire identifiers *)

(** [n], [n+1], ..., [k] values from [n]. *)
Fixpoint zseq (n : Z) (k : nat) : list Z :=
  match k with
  | O => []
  | S k' => n :: zseq (n + 1) k'
  end.

(** The wireIDs in use, in list order. *)
Definition wids (ms : list Metric) : list Z :=
  filter (fun w => negb (w =? 0)) (map wireID ms).

(** How many metrics have no wireID yet. *)
Definition zeros (ms : list Metric) : nat :=
  List.length (filter (fun m => wireID m =? 0) ms).

(** The wireIDs newly given, position by position, in list order. *)
Fixpoint new_ids (ms ms' : list Metric) : list Z :=
  match ms, ms' with
  | m :: ms, m' :: ms' =>
      if (wireID m =? 0) && negb (wireID m' =? 0)
      then wireID m' :: new_ids ms ms' else new_ids ms ms'
  | _, _ => []
  end.

(** The wireIDs in use are exactly [1 .. numWireID], each once. *)
Definition Inv_wire (st : state) : Prop :=
  0 <= numWireID st /\ Permutation (wids (metrics st)) (zseq 1 (Z.to_nat (numWireID st))).

(** Every metric of [ms] with a wireID is still there in [ms'] under the
    same name with the same wireID. *)
Definition keeps_wids (ms ms' : list Metric) : Prop :=
  forall m, In m ms -> wireID m <> 0 ->
  exists m', In m' ms' /\ name m' = name m /\ wireID m' = wireID m.

(** A wireID of [ms'] is one some metric of [ms] already had under the same
    name, or a fresh one in [(n, n']]. *)
Definition fresh_wids (n n' : Z) (ms ms' : list Metric) : Prop :=
  forall m', In m' ms' -> wireID m' <> 0 ->
  (exists m, In m ms /\ name m = name m' /\ wireID m = wireID m') \/
  n < wireID m' <= n'.

(** Two metrics registered as [b_total] (at 0) then [a_gauge] (at 7),
    before and after an encode call at 20s: only [a_gauge] has a change,
    so it is the first to get a wireID although it was registered second. *)
Definition wire_demo_before : state :=
  mkState [mkMetric 0 "b_total" TypeCounter 0 None 0;
           mkMetric 7 "a_gauge" TypeGauge 0 None 0] 0 None true [].

Definition wire_demo_after : state :=
  mkState [mkMetric 0 "b_total" TypeCounter 0 None 0;
           mkMetric 7 "a_gauge" TypeGauge 1 (Some (20 * Second)) 7] 1 (Some (20 * Second)) true [].

(** ** Decoding a frame, as the wire format is documented

    A reader of the frames: each byte is two lowercase hex digits; a
    varint is base-128 groups, low group first, with the high bit set on
    every group but the last (at most [MaxVarintLen64] bytes), then
    zigzag-decoded; a record is 'N' with the name's length and the name,
    'S' with a wireID and an absolute value, or 'I' with a wireID and an
    increment. *)

Definition hex_val (c : ascii) : option Z :=
  let n := Z.of_nat (nat_of_ascii c) in
  if (48 <=? n) && (n <=? 57) then Some (n - 48)
  else if (97 <=? n) && (n <=? 102) then Some (n - 87)
  else None.

Definition read_byte (s : string) : option (Z * string) :=
  match s with
  | String a (String b s') =>
      match hex_val a, hex_val b with
      | Some x, Some y => Some (16 * x + y, s')
      | _, _ => None
      end
  | _ => None
  end.

Fixpoint read_uvarint (fuel : nat) (s : string) : option (Z * string) :=
  match fuel with
  | O => None
  | S f =>
      match read_byte s with
      | None => None
      | Some (b, s') =>
          if b <? 128 then Some (b, s') else
          match read_uvarint f s' with
          | Some (u, s'') => Some (b - 128 + 128 * u, s'')
          | None => None
          end
      end
  end.

Definition unzigzag (u : Z) : Z := if Z.even u then u / 2 else - ((u + 1) / 2).

Definition read_varint (s : string) : option (Z * string) :=
  match read_uvarint MaxVarintLen64 s with
  | Some (u, s') => Some (unzigzag u, s')
  | None => None
  end.

Inductive frame_record :=
| RName (nm : string)
| RSet (wid x : Z)
| RIncr (wid d : Z).

Definition parse_record (s : string) : option (frame_record * string) :=
  match s with
  | EmptyString => None
  | String c s1 =>
      if Ascii.eqb c "N" then
        match read_varint s1 with
        | Some (n, s2) =>
            if (0 <=? n) && Nat.leb (Z.to_nat n) (String.length s2)
            then Some (RName (substring 0 (Z.to_nat n) s2),
                       substring (Z.to_nat n) (String.length s2 - Z.to_nat n) s2)
            else None
        | None => None
        end
      else if Ascii.eqb c "S" then
        match read_varint s1 with
        | Some (w, s2) =>
            match read_varint s2 with Some (x, s3) => Some (RSet w x, s3) | None => None end
        | None => None
        end
      else if Ascii.eqb c "I" then
        match read_varint s1 with
        | Some (w, s2) =>
            match read_varint s2 with Some (d, s3) => Some (RIncr w d, s3) | None => None end
        | None => None
        end
      else None
  end.

Fixpoint parse_frame (fuel : nat) (s : string) : option (list frame_record) :=
  match s with
  | EmptyString => Some []
  | String _ _ =>
      match fuel with
      | O => None
      | S f =>
          match parse_record s with
          | Some (r, s') =>
              match parse_frame f s' with Some rs => Some (r :: rs) | None => None end
          | None => None
          end
      end
  end.

Definition decode_frame (s : string) : option (list frame_record) :=
  parse_frame (String.length s) s.

(** The effect of decoded records on the value a reader keeps for [wid]. *)
Definition apply_records (wid : Z) (rs : list frame_record) (x : Z) : Z :=
  fold_left (fun x r =>
               match r with
               | RSet w y => if w =? wid then y else x
               | RIncr w d => if w =? wid then x + d else x
               | RName _ => x
               end) rs x.

Definition rec_wid (r : frame_record) : option Z :=
  match r with RName _ => None | RSet w _ | RIncr w _ => Some w end.

(** The text the writers produce for one record. *)
Definition record_string (r : frame_record) : string :=
  match r with
  | RName nm => writeName nm EmptyString
  | RSet w x => writeValue w x EmptyString
  | RIncr w d => writeDelta w d EmptyString
  end.

Definition record_ok (r : frame_record) : Prop :=
  match r with
  | RName nm => Z.of_nat (String.length nm) < 2 ^ 63
  | RSet w x | RIncr w x => is_int64 w /\ is_int64 x
  end.

(** [m.Add(n)] on the metric registered as [nm]. *)
Definition AddTo (nm : string) (n : Z) : M unit :=
  fun st => Ok tt (update_metric nm (Add n) st).

(** A fresh counter, [Add(5)], an encode call, [Add(3)], an encode call. *)
Definition roundtrip (c : string) (t1 t2 : Z) : M (string * string) :=
  _ <- NewCounter c ;;
  AddTo c 5 ;;;
  f1 <- EncodeLogTailMetricsDelta t1 ;;
  AddTo c 3 ;;;
  f2 <- EncodeLogTailMetricsDelta t2 ;;
  ret (f1, f2).

(** ** Naming bookkeeping
    A metric has a wireID exactly when it has been named in a frame, and a
    metric without a wireID has never had a value sent. *)
Definition named_ok (m : Metric) : Prop :=
  (wireID m = 0 <-> lastNamed m = None) /\ (wireID m = 0 -> lastLogVal m = 0).

(** ** Example states
    [two_reordered] holds the two metrics of [reachable_two] in the other
    map order; [two_encoded] is the state after an encode call at 20s on
    [reachable_two]'s state. *)
Definition two_reordered : state :=
  mkState [mkMetric 7 "a_gauge" TypeGauge 0 None 0;
           mkMetric 3 "b_total" TypeCounter 0 None 0] 0 None true [].

Definition two_encoded : state :=
  mkState [mkMetric 3 "b_total" TypeCounter 1 (Some (20 * Second)) 3;
           mkMetric 7 "a_gauge" TypeGauge 2 (Some (20 * Second)) 7] 2 (Some (20 * Second)) true [].

(** ** A reader of the frames, as the wire format is documented
    The reader keeps a value and a name per wireID. A name record names
    the metric of the value record that follows it; a value record sets
    the value of its wireID; an increment record adds to it, with the
    wrap-around of int64. *)
Record reader := mkReader {
  rval : Z -> Z;
  rname : Z -> option string;
  pending : option string     (* the name record waiting for its value record *)
}.

Definition reader_init : reader := mkReader (fun _ => 0) (fun _ => None) None.

Definition read_record (rd : reader) (r : frame_record) : reader :=
  match r with
  | RName nm => mkReader (rval rd) (rname rd) (Some nm)
  | RSet w x =>
      mkReader (fun k => if k =? w then x else rval rd k)
               (fun k => if k =? w then pending rd else rname rd k) None
  | RIncr w d =>
      mkReader (fun k => if k =? w then wrap64 (rval rd k + d) else rval rd k)
               (rname rd) (pending rd)
  end.

Definition read_frame (rd : reader) (s : string) : reader :=
  match decode_frame s with
  | Some rs => fold_left read_record rs rd
  | None => rd
  end.

(** What the reader holds for a metric with a wireID: its last sent
    value and its name. *)
Definition agree (rd : reader) (m : Metric) : Prop :=
  wireID m <> 0 -> rval rd (wireID m) = lastLogVal m /\ rname rd (wireID m) = Some (name m).

(** The calls other than [EncodeLogTailMetricsDelta]. *)
Inductive local_step : state -> state -> Prop :=
| local_publish st st' nm t x :
    is_int64 x ->
    (m <- NewUnpublished nm t ;; Publish (Set_ x m)) st = Ok tt st' ->
    local_step st st'
| local_add st nm n : is_int64 n -> local_step st (update_metric nm (Add n) st)
| local_set st nm x : is_int64 x -> local_step st (update_metric nm (Set_ x) st)
| local_metrics st st' l : Metrics st = Ok l st' -> local_step st st'
| local_write st st' out : WritePrometheusExpositionFormat st = Ok out st' -> local_step st st'
| local_reorder st ms : Permutation (metrics st) ms -> local_step st (set_metrics ms st).

(** An execution of the package together with a reader that receives
    every frame the encoder returns, in order. *)
Inductive session : state -> reader -> Prop :=
| session_init : session init_state reader_init
| session_encode st rd now out st' :
    session st rd -> EncodeLogTailMetricsDelta now st = Ok out st' ->
    session st' (read_frame rd out)
| session_local st rd st' : session st rd -> local_step st st' -> session st' rd.

(** ** Reading a decimal integer back, as the exposition format documents
    values: an optional '-' followed by decimal digits. *)
Definition dec_digit_val (c : ascii) : option Z :=
  let n := nat_of_ascii c in
  if Nat.leb 48 n && Nat.leb n 57 then Some (Z.of_nat n - 48) else None.

Fixpoint parse_digits (s : string) (acc : Z) : option Z :=
  match s with
  | EmptyString => Some acc
  | String c s' =>
      match dec_digit_val c with
      | Some d => parse_digits s' (acc * 10 + d)
      | None => None
      end
  end.

Definition parse_int (s : string) : option Z :=
  match s with
  | EmptyString => None
  | String c s' =>
      if Ascii.eqb c "-" then option_map Z.opp (parse_digits s' 0) else parse_digits s 0
  end.

(** * Proofs *)

Example ex_varint : hex_Encode (PutVarint 300) = "d804"%string.
Proof. reflexivity. Qed.
Example ex_varint_neg : hex_Encode (PutVarint (-1)) = "01"%string.
Proof. reflexivity. Qed.
Example ex_varint_min : hex_Encode (PutVarint (- 2 ^ 63)) = "ffffffffffffffffff01"%string.
Proof. reflexivity. Qed.

Definition demo : M (string * string * string) :=
  _ <- NewCounter "foo_total" ;;
  st <- get ;;
  put (update_metric "foo_total" (Add 10) st) ;;;
  f1 <- EncodeLogTailMetricsDelta (20 * Second) ;;
  st <- get ;;
  put (update_metric "foo_total" (Add (-4)) st) ;;;
  f2 <- EncodeLogTailMetricsDelta (40 * Second) ;;
  p <- WritePrometheusExpositionFormat ;;
  ret (f1, f2, p).

Example ex_demo :
  match demo init_state with
  | Ok r _ => Some r
  | Panic _ _ => None
  end = Some ("N12foo_totalS0214"%string, "I0207"%string,
              ("# TYPE foo_total counter" ++ newline ++ "foo_total 6" ++ newline)%string).
Proof. vm_compute. reflexivity. Qed.

(** ** Machine arithmetic *)

Lemma time_Sub_ltb now t c :
  0 <= c <= 2 ^ 63 - 1 -> (time_Sub now t <? c) = (now - t <? c).
Proof.
  intros Hc. unfold time_Sub; cbv zeta.
  destruct (Z.gtb_spec (now - t) (2 ^ 63 - 1)), (Z.ltb_spec (now - t) (- 2 ^ 63));
    match goal with |- (?a <? _) = (?b <? _) =>
      destruct (Z.ltb_spec a c), (Z.ltb_spec b c); solve [reflexivity | lia] end.
Qed.

Lemma time_Sub_gtb now t c :
  0 <= c < 2 ^ 63 - 1 -> (time_Sub now t >? c) = (now - t >? c).
Proof.
  intros Hc. unfold time_Sub; cbv zeta.
  destruct (Z.gtb_spec (now - t) (2 ^ 63 - 1)), (Z.ltb_spec (now - t) (- 2 ^ 63));
    match goal with |- (?a >? _) = (?b >? _) =>
      destruct (Z.gtb_spec a c), (Z.gtb_spec b c); solve [reflexivity | lia] end.
Qed.

Lemma wrap64_id z : is_int64 z -> wrap64 z = z.
Proof.
  unfold is_int64, wrap64; intros H.
  rewrite Z.mod_small by lia. lia.
Qed.

Lemma wrap64_range z : is_int64 (wrap64 z).
Proof.
  unfold is_int64, wrap64.
  pose proof (Z.mod_pos_bound (z + 2 ^ 63) (2 ^ 64) ltac:(lia)). lia.
Qed.

Lemma wrap64_sub_0 a b : is_int64 a -> is_int64 b -> (wrap64 (a - b) =? 0) = (a =? b).
Proof.
  unfold is_int64, wrap64; intros Ha Hb.
  destruct (Z.eqb_spec a b).
  - subst. rewrite Z.sub_diag, Z.mod_small by lia. reflexivity.
  - apply Z.eqb_neq. intros E.
    destruct (Z_lt_le_dec (a - b) (- 2 ^ 63)) as [L|L].
    + rewrite <- (Z.mod_add _ 1) in E by lia.
      rewrite Z.mod_small in E by lia. lia.
    + destruct (Z_lt_le_dec (a - b) (2 ^ 63)) as [L'|L'].
      * rewrite Z.mod_small in E by lia. lia.
      * rewrite <- (Z.mod_add _ (-1)) in E by lia.
        rewrite Z.mod_small in E by lia. lia.
Qed.

(** ** Rate limiting *)

Lemma rate_limited_iff now ld :
  rate_limited now ld = true <-> exists t, ld = Some t /\ now - t < minMetricEncodeInterval.
Proof.
  unfold rate_limited; destruct ld as [t|].
  - rewrite time_Sub_ltb by (unfold minMetricEncodeInterval, Second; lia).
    rewrite Z.ltb_lt. split; [eauto | intros (t' & E & H); injection E; intros; subst; exact H].
  - split; [discriminate | intros (t' & E & _); discriminate].
Qed.

(** C3: a call less than [minMetricEncodeInterval] after the last
    non-limited call returns the empty string and changes nothing, whatever
    the metric values; any other call sets [lastDelta] to [now] (also when
    it writes no record) and scans the registered metrics. *)
Theorem EncodeLogTailMetricsDelta_rate_limit (now : Z) (st : state) :
  (forall t, lastDelta st = Some t -> now - t < minMetricEncodeInterval ->
     EncodeLogTailMetricsDelta now st = Ok EmptyString st) /\
  ((lastDelta st = None \/
    exists t, lastDelta st = Some t /\ minMetricEncodeInterval <= now - t) ->
     exists out,
       let '(ms, _, nw) := encode_loop now (metrics st) None (numWireID st) in
       EncodeLogTailMetricsDelta now st =
         Ok out (mkState ms nw (Some now) (sortedDirty st) (sorted st))).
Proof.
  split.
  - intros t E L. unfold EncodeLogTailMetricsDelta, bind, get.
    replace (rate_limited now (lastDelta st)) with true
      by (symmetry; apply rate_limited_iff; eauto).
    reflexivity.
  - intros H. unfold EncodeLogTailMetricsDelta, bind, get.
    replace (rate_limited now (lastDelta st)) with false.
    + simpl. destruct (encode_loop now (metrics st) None (numWireID st)) as [[ms enc] nw].
      unfold put. destruct enc; eexists; reflexivity.
    + symmetry. apply not_true_iff_false. rewrite rate_limited_iff.
      intros (t & E & L). destruct H as [H | (t' & E' & L')]; congruence || (rewrite E in E'; injection E'; lia).
Qed.

Lemma EncodeLogTailMetricsDelta_rate_limit_witness :
  EncodeLogTailMetricsDelta (20 * Second) (mkState [] 0 (Some (10 * Second)) false []) =
    Ok EmptyString (mkState [] 0 (Some (10 * Second)) false []) /\
  exists out, EncodeLogTailMetricsDelta (30 * Second) (mkState [] 0 (Some (10 * Second)) false []) =
    Ok out (mkState [] 0 (Some (30 * Second)) false []).
Proof.
  split.
  - apply (proj1 (EncodeLogTailMetricsDelta_rate_limit (20 * Second) (mkState [] 0 (Some (10 * Second)) false [])) (10 * Second));
      [reflexivity | unfold minMetricEncodeInterval, Second; lia].
  - apply (proj2 (EncodeLogTailMetricsDelta_rate_limit (30 * Second) (mkState [] 0 (Some (10 * Second)) false []))).
    right. exists (10 * Second). split; [reflexivity | unfold minMetricEncodeInterval, Second; lia].
Defined.

(** C10: with no previous call recorded (the zero time), the call is never
    rate-limited: it records [now] and scans the registry. *)
Theorem EncodeLogTailMetricsDelta_first_call (now : Z) (ms : list Metric) (nw : Z)
    (sd : bool) (srt : list string) :
  exists out,
    let '(ms', _, nw') := encode_loop now ms None nw in
    EncodeLogTailMetricsDelta now (mkState ms nw None sd srt) =
      Ok out (mkState ms' nw' (Some now) sd srt).
Proof.
  unfold EncodeLogTailMetricsDelta, bind, get; simpl.
  destruct (encode_loop now ms None nw) as [[ms' enc] nw'].
  unfold put. destruct enc; eexists; reflexivity.
Qed.

(** ** Varint and hex encoding against their description *)

Lemma lxor_ones64 a : 0 <= a < 2 ^ 64 -> Z.lxor a (2 ^ 64 - 1) = 2 ^ 64 - 1 - a.
Proof.
  intros Ha.
  assert (Hl : Z.log2 a < 64).
  { destruct (Z.eq_dec a 0) as [->|]; [simpl; lia|].
    apply Z.log2_lt_pow2; lia. }
  replace (2 ^ 64 - 1) with (Z.ones 64) by reflexivity.
  rewrite <- Z.ldiff_ones_l_low by lia.
  rewrite <- Z.sub_nocarry_ldiff; [reflexivity|].
  apply Z.ldiff_ones_r_low; lia.
Qed.

Lemma PutVarint_zigzag x :
  is_int64 x -> PutVarint x = PutUvarint (zigzag x).
Proof.
  unfold is_int64, PutVarint, zigzag; intros Hx.
  replace (2 ^ 64 - 1) with (Z.ones 64) by reflexivity.
  rewrite Z.land_ones, Z.shiftl_mul_pow2 by lia.
  replace (Z.ones 64) with (2 ^ 64 - 1) by reflexivity.
  destruct (Z.ltb_spec x 0), (Z.leb_spec 0 x); try lia.
  - rewrite <- (Z.mod_add x 1) by lia.
    rewrite (Z.mod_small (x + 1 * 2 ^ 64)) by lia.
    rewrite <- (Z.mod_add _ (-1)) by lia.
    rewrite Z.mod_small by lia.
    rewrite lxor_ones64 by lia. f_equal. lia.
  - rewrite (Z.mod_small x), Z.mod_small by lia. f_equal. lia.
Qed.

Lemma byte_cases (P : Z -> Prop) (f : Z -> bool) :
  (forall b, f b = true -> P b) ->
  forallb f (map Z.of_nat (seq 0 256)) = true ->
  forall b, 0 <= b < 256 -> P b.
Proof.
  intros Hf Hall b Hb. apply Hf.
  rewrite forallb_forall in Hall. apply Hall.
  apply in_map_iff. exists (Z.to_nat b). split; [lia|].
  apply in_seq. lia.
Qed.

Lemma lor_128 r : 0 <= r < 256 -> Z.lor r 128 = 128 + r mod 128.
Proof.
  revert r. apply (byte_cases _ (fun r => Z.lor r 128 =? 128 + r mod 128)).
  - intros b. apply Z.eqb_eq.
  - vm_compute. reflexivity.
Qed.

Lemma hex_nibbles b :
  0 <= b < 256 ->
  hex_char (Z.shiftr b 4) = lower_hex_digit (b / 16) /\
  hex_char (Z.land b 15) = lower_hex_digit (b mod 16).
Proof.
  revert b. apply (byte_cases _ (fun b => Ascii.eqb (hex_char (Z.shiftr b 4)) (lower_hex_digit (b / 16)) &&
                                Ascii.eqb (hex_char (Z.land b 15)) (lower_hex_digit (b mod 16)))).
  - intros b H. apply andb_prop in H as [H1 H2].
    apply Ascii.eqb_eq in H1, H2. auto.
  - vm_compute. reflexivity.
Qed.

Lemma hex_Encode_spec bs :
  Forall (fun b => 0 <= b < 256) bs -> hex_Encode bs = hex_spec bs.
Proof.
  induction 1 as [|b bs Hb _ IH]; [reflexivity|].
  simpl. destruct (hex_nibbles b Hb) as [-> ->]. rewrite IH. reflexivity.
Qed.

Lemma PutUvarint_loop_spec fuel u :
  0 <= u < 128 * 128 ^ Z.of_nat fuel ->
  base128 u (PutUvarint_loop fuel u) /\
  Forall (fun b => 0 <= b < 256) (PutUvarint_loop fuel u).
Proof.
  revert u; induction fuel as [|fuel IH]; intros u Hu.
  - simpl in Hu. simpl. rewrite Z.land_ones with (n := 8) by lia.
    change (2 ^ 8) with 256. rewrite Z.mod_small by lia.
    split; constructor; [lia | lia | constructor].
  - simpl. destruct (Z.geb_spec u 128).
    + rewrite Z.land_ones with (n := 8) by lia. change (2 ^ 8) with 256.
      rewrite lor_128 by (apply Z.mod_pos_bound; lia).
      replace ((u mod 256) mod 128) with (u mod 128)
        by (rewrite Z.mod_mod_divide; [reflexivity | exists 2; reflexivity]).
      rewrite Z.shiftr_div_pow2 by lia. change (2 ^ 7) with 128.
      assert (Hd : 0 <= u / 128 < 128 * 128 ^ Z.of_nat fuel).
      { split; [apply Z.div_pos; lia|].
        apply Z.div_lt_upper_bound; [lia|].
        rewrite Nat2Z.inj_succ, Z.pow_succ_r in Hu by lia. lia. }
      destruct (IH _ Hd) as [H1 H2].
      split; [constructor; auto; lia|].
      constructor; [pose proof (Z.mod_pos_bound u 128); lia | exact H2].
    + rewrite Z.land_ones with (n := 8) by lia. change (2 ^ 8) with 256.
      rewrite Z.mod_small by lia.
      split; constructor; [lia | lia | constructor].
Qed.

Lemma zigzag_range x : is_int64 x -> 0 <= zigzag x < 2 ^ 64.
Proof. unfold is_int64, zigzag; intros H; destruct (Z.leb_spec 0 x); lia. Qed.

Lemma writeHexVarint_spec x buf :
  is_int64 x ->
  exists h, hex_varint x h /\ writeHexVarint x buf = (buf ++ h)%string.
Proof.
  intros Hx. unfold writeHexVarint.
  rewrite PutVarint_zigzag by exact Hx.
  destruct (PutUvarint_loop_spec MaxVarintLen64 (zigzag x)) as [H1 H2].
  { pose proof (zigzag_range x Hx). simpl. lia. }
  exists (hex_spec (PutUvarint (zigzag x))). split.
  - exists (PutUvarint (zigzag x)). auto.
  - rewrite hex_Encode_spec by exact H2. reflexivity.
Qed.

Lemma hex_varint_PutVarint y : is_int64 y -> hex_varint y (hex_Encode (PutVarint y)).
Proof.
  intros Hy. rewrite PutVarint_zigzag by exact Hy.
  destruct (PutUvarint_loop_spec MaxVarintLen64 (zigzag y)) as [H1 H2].
  { pose proof (zigzag_range y Hy). simpl. lia. }
  exists (PutUvarint (zigzag y)). repeat split; auto.
  apply hex_Encode_spec, H2.
Qed.

Lemma str_app_assoc (a b c : string) : (a ++ (b ++ c) = (a ++ b) ++ c)%string.
Proof. induction a as [|ch a IH]; simpl; [reflexivity | rewrite IH; reflexivity]. Qed.

Lemma str_app_nil (a : string) : (a ++ EmptyString = a)%string.
Proof. induction a as [|ch a IH]; simpl; [reflexivity | rewrite IH; reflexivity]. Qed.

(** C2: the byte-exact record format. A name record is 'N', the
    hex-encoded signed varint of the name's byte length and the raw name;
    a value record is 'S' and the hex varints of the wireID and of the
    absolute value; an increment record is 'I' and the hex varints of the
    wireID and of the delta. A hex varint is the zigzag value cut into
    base-128 groups with continuation bits, each byte as two lowercase hex
    digits ([hex_varint]). *)
Theorem record_wire_format (nm : string) (wid x : Z) (buf : string) :
  Z.of_nat (String.length nm) < 2 ^ 63 -> is_int64 wid -> is_int64 x ->
  exists hlen hwid hx,
    hex_varint (Z.of_nat (String.length nm)) hlen /\
    hex_varint wid hwid /\ hex_varint x hx /\
    writeName nm buf = (buf ++ "N" ++ hlen ++ nm)%string /\
    writeValue wid x buf = (buf ++ "S" ++ hwid ++ hx)%string /\
    writeDelta wid x buf = (buf ++ "I" ++ hwid ++ hx)%string.
Proof.
  intros Hn Hw Hx.
  exists (hex_Encode (PutVarint (Z.of_nat (String.length nm)))),
         (hex_Encode (PutVarint wid)), (hex_Encode (PutVarint x)).
  repeat split.
  - apply hex_varint_PutVarint. unfold is_int64; lia.
  - apply hex_varint_PutVarint, Hw.
  - apply hex_varint_PutVarint, Hx.
  - unfold writeName, writeHexVarint. rewrite <- !str_app_assoc. reflexivity.
  - unfold writeValue, writeHexVarint. rewrite <- !str_app_assoc. reflexivity.
  - unfold writeDelta, writeHexVarint. rewrite <- !str_app_assoc. reflexivity.
Qed.

Lemma record_wire_format_witness :
  exists hlen hwid hx,
    hex_varint 9 hlen /\ hex_varint 1 hwid /\ hex_varint (-4) hx /\
    writeName "foo_total" "" = ("" ++ "N" ++ hlen ++ "foo_total")%string /\
    writeValue 1 (-4) "" = ("" ++ "S" ++ hwid ++ hx)%string /\
    writeDelta 1 (-4) "" = ("" ++ "I" ++ hwid ++ hx)%string.
Proof.
  apply (record_wire_format "foo_total" 1 (-4) "");
    unfold is_int64; simpl; lia.
Defined.

(** ** One encoder pass *)

Lemma writeName_app nm buf : writeName nm buf = (buf ++ writeName nm EmptyString)%string.
Proof. unfold writeName, writeHexVarint. rewrite <- !str_app_assoc. reflexivity. Qed.

Lemma writeValue_app wid x buf : writeValue wid x buf = (buf ++ writeValue wid x EmptyString)%string.
Proof. unfold writeValue, writeHexVarint. rewrite <- !str_app_assoc. reflexivity. Qed.

Lemma writeDelta_app wid x buf : writeDelta wid x buf = (buf ++ writeDelta wid x EmptyString)%string.
Proof. unfold writeDelta, writeHexVarint. rewrite <- !str_app_assoc. reflexivity. Qed.

Lemma encode_metric_record now m enc nw :
  0 <= nw < 2 ^ 63 - 1 -> int64_vals m ->
  let '(m', enc', n1) := encode_metric now m enc nw in
  exists r, opt_buf enc' = (opt_buf enc ++ r)%string /\
            metric_record now nw m r m' n1 /\ nw <= n1 <= nw + 1.
Proof.
  intros Hn [Hv1 Hv2]. unfold encode_metric, Value.
  rewrite wrap64_sub_0 by assumption.
  destruct (Z.eqb_spec (v m) (lastLogVal m)) as [Heq|Hne].
  { exists EmptyString. split; [symmetry; apply str_app_nil|].
    split; [constructor; exact Heq | lia]. }
  change (match enc with Some b => b | None => EmptyString end) with (opt_buf enc).
  unfold Name.
  destruct (Z.eqb_spec (wireID m) 0) as [Hw0|Hw0];
    [ assert (Hw : next_wireID m nw (nw + 1) (nw + 1)) by (left; repeat split; lia);
      rewrite wrap64_id by (unfold is_int64; lia)
    | assert (Hw : next_wireID m nw (wireID m) nw) by (right; auto) ];
    cbv beta iota;
    (destruct (lastNamed m) as [t|] eqn:Hln;
     [ rewrite time_Sub_gtb by (unfold metricLogNameFrequency, Hour, Second; lia);
       destruct (Z.gtb_spec (now - t) metricLogNameFrequency) | ]).
  all: try (eexists; split;
            [| split; [apply mr_named;
                       [ exact Hne
                       | first [left; exact Hln | right; exists t; split; [exact Hln | lia]]
                       | exact Hw ] | lia]];
            cbn [opt_buf]; rewrite (writeValue_app _ (v m) (writeName _ _)),
                                   (writeName_app (name m) (opt_buf enc));
            rewrite <- str_app_assoc; reflexivity).
  all: rewrite <- Hln; eexists; split;
       [| split; [eapply mr_increment; [exact Hne | exact Hln | lia | exact Hw] | lia]];
       cbn [opt_buf]; apply writeDelta_app.
Qed.

Lemma encode_loop_frame now ms : forall enc nw,
  0 <= nw -> nw + Z.of_nat (List.length ms) < 2 ^ 63 -> Forall int64_vals ms ->
  exists out,
    let '(ms', enc', nw') := encode_loop now ms enc nw in
    opt_buf enc' = (opt_buf enc ++ out)%string /\ delta_frame now nw ms out ms' nw'.
Proof.
  induction ms as [|m ms IH]; intros enc nw Hn Hlen Hv.
  - exists EmptyString. simpl. split; [symmetry; apply str_app_nil | constructor].
  - inversion Hv as [|? ? Hm Hvs]; subst. cbn [List.length] in Hlen.
    cbn [encode_loop].
    pose proof (encode_metric_record now m enc nw ltac:(lia) Hm) as Hr.
    destruct (encode_metric now m enc nw) as [[m' enc1] n1].
    destruct Hr as (r & Hb1 & Hmr & Hn1).
    destruct (IH enc1 n1) as [out Hout]; [lia | lia | exact Hvs |].
    destruct (encode_loop now ms enc1 n1) as [[ms' enc'] nw'].
    destruct Hout as [Hb2 Hdf].
    exists (r ++ out)%string. split.
    + rewrite Hb2, Hb1, str_app_assoc. reflexivity.
    + econstructor; eauto.
Qed.

(** C1: in a call that is not rate-limited, the frame is the records of
    the registered metrics in iteration order, each as [metric_record]
    says: nothing for an unchanged metric; for a changed one never named
    or named more than four hours ago, a name record then a value record,
    the naming time set to [now] and, if it had no wireID, the next
    positive one; otherwise one increment record with the int64
    difference; and the last sent value of a changed metric becomes its
    current value. The next wireID is positive and sequential as long as
    fewer than [2^63] wireIDs have been allocated. *)
Theorem EncodeLogTailMetricsDelta_records (now : Z) (st st' : state) (out : string) :
  rate_limited now (lastDelta st) = false ->
  0 <= numWireID st -> numWireID st + Z.of_nat (List.length (metrics st)) < 2 ^ 63 ->
  Forall int64_vals (metrics st) ->
  EncodeLogTailMetricsDelta now st = Ok out st' ->
  delta_frame now (numWireID st) (metrics st) out (metrics st') (numWireID st') /\
  lastDelta st' = Some now.
Proof.
  intros Hrl Hn Hlen Hv He.
  unfold EncodeLogTailMetricsDelta, bind, get in He. cbv beta in He.
  rewrite Hrl in He. cbv beta iota zeta in He.
  cbn [metrics numWireID lastDelta sortedDirty sorted] in He.
  destruct (encode_loop_frame now (metrics st) None (numWireID st) Hn Hlen Hv) as [o Ho].
  destruct (encode_loop now (metrics st) None (numWireID st)) as [[ms enc] nw].
  destruct Ho as [Hb Hdf]. unfold put, ret in He.
  destruct enc as [b|]; cbn [opt_buf String.append] in Hb; cbv beta iota in He;
    injection He as <- <-; subst; cbn; auto.
Qed.

Lemma EncodeLogTailMetricsDelta_records_witness :
  delta_frame (20 * Second) 0 [mkMetric 10 "foo_total" TypeCounter 0 None 0]
    "N12foo_totalS0214"
    [mkMetric 10 "foo_total" TypeCounter 1 (Some (20 * Second)) 10] 1 /\
  lastDelta (mkState [mkMetric 10 "foo_total" TypeCounter 1 (Some (20 * Second)) 10]
               1 (Some (20 * Second)) true []) = Some (20 * Second).
Proof.
  apply (EncodeLogTailMetricsDelta_records (20 * Second)
           (mkState [mkMetric 10 "foo_total" TypeCounter 0 None 0] 0 None true [])
           (mkState [mkMetric 10 "foo_total" TypeCounter 1 (Some (20 * Second)) 10]
              1 (Some (20 * Second)) true [])
           "N12foo_totalS0214");
    [reflexivity | simpl; lia | simpl; lia
    | repeat constructor; unfold is_int64; simpl; lia | vm_compute; reflexivity].
Defined.

(** ** Go's string order and the sort *)

Lemma ascii_compare_trans_lt x y z :
  Ascii.compare x y = Lt -> Ascii.compare y z = Lt -> Ascii.compare x z = Lt.
Proof. unfold Ascii.compare. rewrite !N.compare_lt_iff. lia. Qed.

Lemma str_lt_trans a b c : str_lt a b -> str_lt b c -> str_lt a c.
Proof.
  unfold str_lt, String.ltb. revert b c.
  induction a as [|x a IH]; intros [|y b] [|z c]; simpl; try discriminate; auto.
  destruct (Ascii.compare x y) eqn:Exy; try discriminate;
    destruct (Ascii.compare y z) eqn:Eyz; try discriminate; intros H1 H2.
  - apply Ascii.compare_eq_iff in Exy, Eyz. subst.
    unfold Ascii.compare. rewrite N.compare_refl. eauto.
  - apply Ascii.compare_eq_iff in Exy. subst. rewrite Eyz. reflexivity.
  - apply Ascii.compare_eq_iff in Eyz. subst. rewrite Exy. reflexivity.
  - rewrite (ascii_compare_trans_lt _ _ _ Exy Eyz). reflexivity.
Qed.

Lemma str_lt_total a b : a <> b -> ~ str_lt a b -> str_lt b a.
Proof.
  unfold str_lt, String.ltb. intros Hne Hn.
  destruct (String.compare a b) eqn:E.
  - apply String.compare_eq_iff in E. congruence.
  - exfalso. apply Hn. reflexivity.
  - rewrite String.compare_antisym, E. reflexivity.
Qed.

Lemma str_lt_irrefl a : ~ str_lt a a.
Proof.
  unfold str_lt, String.ltb.
  assert (H : String.compare a a = Eq).
  { induction a as [|x a IH]; simpl; auto.
    unfold Ascii.compare. rewrite N.compare_refl. exact IH. }
  rewrite H. discriminate.
Qed.

Lemma insert_name_perm x l : Permutation (insert_name x l) (x :: l).
Proof.
  induction l as [|y l IH]; simpl; auto.
  destruct (String.ltb x y); auto.
  rewrite IH. apply perm_swap.
Qed.

Lemma insert_name_hd y x l : str_lt y x -> HdRel str_lt y l -> HdRel str_lt y (insert_name x l).
Proof.
  intros Hyx Hd. destruct l as [|z l]; simpl; [auto|].
  destruct (String.ltb x z); auto. inversion Hd; auto.
Qed.

Lemma insert_name_sorted x l :
  Sorted str_lt l -> ~ In x l -> Sorted str_lt (insert_name x l).
Proof.
  induction 1 as [|y l Hl IH Hd]; intros Hin; simpl; [auto|].
  destruct (String.ltb x y) eqn:E.
  - constructor; [constructor; auto | constructor; exact E].
  - assert (Hyx : str_lt y x).
    { apply str_lt_total; [intros ->; apply Hin; left; auto | unfold str_lt; congruence]. }
    constructor; [apply IH; intros H; apply Hin; right; exact H|].
    apply insert_name_hd; assumption.
Qed.

Lemma sort_names_perm l : Permutation (sort_names l) l.
Proof.
  induction l as [|x l IH]; simpl; auto.
  rewrite insert_name_perm, IH. reflexivity.
Qed.

Lemma sort_names_sorted l : NoDup l -> Sorted str_lt (sort_names l).
Proof.
  induction 1 as [|x l Hx _ IH]; simpl; [constructor|].
  apply insert_name_sorted; [exact IH|].
  intros H. apply Hx. apply (Permutation_in _ (sort_names_perm l)), H.
Qed.

(** ** Shape of each operation *)

Definition same_metric (m m' : Metric) : Prop :=
  name m' = name m /\ v m' = v m /\ typ m' = typ m /\
  (lastLogVal m' = lastLogVal m \/ lastLogVal m' = v m).

Lemma encode_loop_shape now ms : forall enc nw,
  let '(ms', _, _) := encode_loop now ms enc nw in Forall2 same_metric ms ms'.
Proof.
  induction ms as [|m ms IH]; intros enc nw; simpl; [constructor|].
  destruct (encode_metric now m enc nw) as [[m' enc1] n1] eqn:Em.
  specialize (IH enc1 n1).
  destruct (encode_loop now ms enc1 n1) as [[ms' enc'] nw'].
  constructor; [|exact IH].
  unfold encode_metric in Em.
  destruct (wrap64 (Value m - lastLogVal m) =? 0);
    [injection Em as <- _ _; repeat split; auto|].
  destruct (if wireID m =? 0 then let nw0 := wrap64 (nw + 1) in (nw0, nw0) else (nw, wireID m)).
  destruct (match lastNamed m with Some t => _ | None => true end);
    injection Em as <- _ _; repeat split; simpl; auto.
Qed.

Lemma Forall2_map_name ms ms' : Forall2 same_metric ms ms' -> map name ms' = map name ms.
Proof. induction 1 as [|m m' ms ms' [H _] _ IH]; simpl; congruence. Qed.

Lemma Forall2_int64 ms ms' :
  Forall2 same_metric ms ms' -> Forall int64_vals ms -> Forall int64_vals ms'.
Proof.
  induction 1 as [|m m' ms ms' (_ & Hv & _ & Hl) _ IH]; intros H; inversion H as [|? ? [H1 H2] H3]; subst;
    constructor; auto.
  split; [rewrite Hv; exact H1 | destruct Hl as [-> | ->]; auto; rewrite <- Hv; auto].
Qed.

Lemma EncodeLogTailMetricsDelta_cases now st out st' :
  EncodeLogTailMetricsDelta now st = Ok out st' ->
  (st' = st /\ out = EmptyString) \/
  (rate_limited now (lastDelta st) = false /\
   exists enc, encode_loop now (metrics st) None (numWireID st) = (metrics st', enc, numWireID st') /\
   out = opt_buf enc /\
   st' = mkState (metrics st') (numWireID st') (Some now) (sortedDirty st) (sorted st)).
Proof.
  unfold EncodeLogTailMetricsDelta, bind, get; cbv beta.
  destruct (rate_limited now (lastDelta st)) eqn:Hrl.
  - intros H. injection H as <- <-. auto.
  - cbv beta iota zeta. cbn [metrics numWireID lastDelta sortedDirty sorted].
    destruct (encode_loop now (metrics st) None (numWireID st)) as [[ms enc] nw] eqn:E.
    unfold put, ret. intros H. right. split; [reflexivity|].
    destruct enc as [b|]; injection H as <- <-; eexists; cbn;
      (split; [reflexivity | split; reflexivity]).
Qed.

Lemma name_registered_false nm ms :
  name_registered nm ms = false <-> ~ In nm (map name ms).
Proof.
  unfold name_registered. rewrite <- not_true_iff_false, existsb_exists.
  split; intros H1 H2; apply H1.
  - apply in_map_iff in H2 as (m & <- & Hm). exists m. split; [exact Hm | apply String.eqb_refl].
  - destruct H2 as (m & Hm & E). apply String.eqb_eq in E. subst. apply in_map, Hm.
Qed.

Lemma publish_step_cases nm t x st st' :
  (m <- NewUnpublished nm t ;; Publish (Set_ x m)) st = Ok tt st' ->
  valid_name nm /\ ~ In nm (map name (metrics st)) /\
  st' = mkState (metrics st ++ [mkMetric x nm t 0 None 0]) (numWireID st) (lastDelta st) true (sorted st).
Proof.
  unfold NewUnpublished, Publish, bind, get, ret, panic, put.
  destruct (String.eqb nm "" || negb (IndexFunc nm isIllegalMetricRune =? -1)) eqn:E;
    [discriminate|].
  apply orb_false_iff in E as [E1 E2]. apply negb_false_iff, Z.eqb_eq in E2.
  apply String.eqb_neq in E1. cbn. rewrite (proj2 (String.eqb_neq nm "") E1).
  destruct (name_registered nm (metrics st)) eqn:R; [discriminate|].
  intros H. injection H as <-.
  split; [split; assumption | split; [apply name_registered_false, R | reflexivity]].
Qed.

Lemma Metrics_cases st l st' :
  Metrics st = Ok l st' ->
  (sortedDirty st = true /\ l = sort_names (map name (metrics st)) /\
   st' = mkState (metrics st) (numWireID st) (lastDelta st) false l) \/
  (sortedDirty st = false /\ l = sorted st /\ st' = st).
Proof.
  unfold Metrics, bind, get, put, ret; cbv beta.
  destruct (sortedDirty st); intros H; injection H as <- <-; auto.
Qed.

Lemma Write_cases st out st' :
  WritePrometheusExpositionFormat st = Ok out st' ->
  exists l, Metrics st = Ok l st' /\
    out = fold_left (fun out nm =>
                       match lookup nm (metrics st') with
                       | Some m => (out ++ prom_lines m)%string
                       | None => out
                       end) l EmptyString.
Proof.
  unfold WritePrometheusExpositionFormat, bind at 1.
  destruct (Metrics st) as [l st1|msg st1] eqn:E; [|discriminate].
  unfold bind, get, ret. intros H. injection H as <- <-. eauto.
Qed.

Lemma update_metric_names nm f st :
  (forall m, name (f m) = name m) ->
  map name (metrics (update_metric nm f st)) = map name (metrics st).
Proof.
  intros Hf. unfold update_metric, set_metrics. cbn. rewrite map_map.
  apply map_ext. intros m. destruct (String.eqb (name m) nm); auto.
Qed.

Lemma Inv_registry_intro st :
  NoDup (map name (metrics st)) ->
  Forall (fun m => valid_name (name m)) (metrics st) ->
  Forall int64_vals (metrics st) ->
  (sortedDirty st = false ->
   Sorted str_lt (sorted st) /\ Permutation (sorted st) (map name (metrics st))) ->
  Inv_registry st.
Proof. unfold Inv_registry; auto. Qed.

Lemma step_Inv_registry st st' : Inv_registry st -> step st st' -> Inv_registry st'.
Proof.
  intros (Hnd & Hval & Hint & Hcache) Hs.
  destruct Hs as [st st' nm t x Hx Hp | st nm n Hn | st nm x Hx | st st' l Hm
                 | st st' out Hw | st st' now out He | st ms Hperm].
  - apply publish_step_cases in Hp as (Hv & Hfresh & ->).
    apply Inv_registry_intro; cbn.
    + rewrite map_app. apply (Permutation_NoDup (Permutation_cons_append _ _)).
      constructor; assumption.
    + apply Forall_app. split; [exact Hval | constructor; [exact Hv | constructor]].
    + apply Forall_app. split; [exact Hint|].
      constructor; [split; [exact Hx | unfold is_int64; cbn; lia] | constructor].
    + discriminate.
  - apply Inv_registry_intro; rewrite ?update_metric_names by reflexivity;
      unfold update_metric, set_metrics; cbn.
    + exact Hnd.
    + rewrite Forall_map. eapply Forall_impl; [|exact Hval].
      intros m. destruct (String.eqb (name m) nm); auto.
    + rewrite Forall_map. eapply Forall_impl; [|exact Hint].
      intros m [H1 H2]. destruct (String.eqb (name m) nm);
        [split; [apply wrap64_range | exact H2] | split; auto].
    + exact Hcache.
  - apply Inv_registry_intro; rewrite ?update_metric_names by reflexivity;
      unfold update_metric, set_metrics; cbn.
    + exact Hnd.
    + rewrite Forall_map. eapply Forall_impl; [|exact Hval].
      intros m. destruct (String.eqb (name m) nm); auto.
    + rewrite Forall_map. eapply Forall_impl; [|exact Hint].
      intros m [H1 H2]. destruct (String.eqb (name m) nm); split; auto.
    + exact Hcache.
  - apply Metrics_cases in Hm as [(_ & -> & ->) | (_ & _ & ->)].
    + apply Inv_registry_intro; cbn; auto.
      intros _. split; [apply sort_names_sorted, Hnd | apply sort_names_perm].
    + apply Inv_registry_intro; auto.
  - apply Write_cases in Hw as (l & Hm & _).
    apply Metrics_cases in Hm as [(_ & -> & ->) | (_ & _ & ->)].
    + apply Inv_registry_intro; cbn; auto.
      intros _. split; [apply sort_names_sorted, Hnd | apply sort_names_perm].
    + apply Inv_registry_intro; auto.
  - apply EncodeLogTailMetricsDelta_cases in He as [(-> & _) | (_ & enc & E & _ & Hst')].
    + apply Inv_registry_intro; auto.
    + pose proof (encode_loop_shape now (metrics st) None (numWireID st)) as Hsh.
      rewrite E in Hsh. rewrite Hst'.
      apply Inv_registry_intro; cbn; rewrite ?(Forall2_map_name _ _ Hsh).
      * exact Hnd.
      * clear -Hsh Hval. induction Hsh as [|m m' ms ms' [Hn _] _ IH]; inversion Hval; subst;
          constructor; [rewrite Hn|]; auto.
      * eapply Forall2_int64; eauto.
      * exact Hcache.
  - apply Inv_registry_intro; unfold set_metrics; cbn.
    + apply (Permutation_NoDup (Permutation_map name Hperm)), Hnd.
    + apply (Permutation_Forall Hperm), Hval.
    + apply (Permutation_Forall Hperm), Hint.
    + intros Hd. destruct (Hcache Hd) as [H1 H2]. split; [exact H1|].
      rewrite H2. apply Permutation_map, Hperm.
Qed.

Lemma reachable_Inv_registry st : reachable st -> Inv_registry st.
Proof.
  induction 1 as [|st st' _ IH Hs].
  - unfold Inv_registry; cbn. repeat split; constructor.
  - eapply step_Inv_registry; eauto.
Qed.

(** ** List and the exposition format *)

(** C8: [Metrics] returns every registered metric exactly once, in
    ascending name order, both when it rebuilds the cache and when it
    returns the cached slice; it changes no metric. *)
Theorem Metrics_sorted_registry (st st' : state) (l : list string) :
  reachable st -> Metrics st = Ok l st' ->
  Sorted str_lt l /\ NoDup l /\ Permutation l (map name (metrics st)) /\
  metrics st' = metrics st.
Proof.
  intros Hr Hm. destruct (reachable_Inv_registry st Hr) as (Hnd & _ & _ & Hcache).
  apply Metrics_cases in Hm as [(_ & -> & ->) | (Hd & -> & ->)].
  - repeat split.
    + apply sort_names_sorted, Hnd.
    + apply (Permutation_NoDup (Permutation_sym (sort_names_perm _))), Hnd.
    + apply sort_names_perm.
  - destruct (Hcache Hd) as [H1 H2]. repeat split; auto.
    apply (Permutation_NoDup (Permutation_sym H2)), Hnd.
Qed.

Lemma lookup_In_name nm ms :
  In nm (map name ms) -> exists m, lookup nm ms = Some m /\ name m = nm /\ In m ms.
Proof.
  induction ms as [|m ms IH]; simpl; [intros []|].
  intros H. destruct (String.eqb_spec (name m) nm) as [E|E].
  - exists m. auto.
  - destruct H as [H|H]; [congruence|]. destruct (IH H) as (m' & ? & ? & ?). eauto.
Qed.

Lemma str_app_empty_l (a : string) : (EmptyString ++ a)%string = a.
Proof. reflexivity. Qed.

Lemma exposition_lines_prom m : prom_lines m = exposition_lines m.
Proof.
  unfold prom_lines, exposition_lines, Name, Value.
  destruct (typ m); cbn [type_word]; rewrite <- !str_app_assoc; reflexivity.
Qed.

Lemma write_loop ms : forall l acc,
  incl l (map name ms) ->
  exists ml, map name ml = l /\ incl ml ms /\
    fold_left (fun out nm => match lookup nm ms with
                             | Some m => (out ++ prom_lines m)%string
                             | None => out
                             end) l acc = (acc ++ concat_str (map exposition_lines ml))%string.
Proof.
  induction l as [|nm l IH]; intros acc Hincl.
  - exists []. repeat split; [intros ? []|]. symmetry; apply str_app_nil.
  - destruct (lookup_In_name nm ms (Hincl nm (or_introl eq_refl))) as (m & Hl & Hn & Hm).
    destruct (IH (acc ++ prom_lines m)%string) as (ml & H1 & H2 & H3).
    { intros x Hx. apply Hincl. right. exact Hx. }
    exists (m :: ml). repeat split.
    + cbn. congruence.
    + intros x [<-|Hx]; auto.
    + cbn [fold_left map concat_str]. rewrite Hl, H3, exposition_lines_prom, <- str_app_assoc. reflexivity.
Qed.

Lemma lookup_name_NoDup m ms : NoDup (map name ms) -> In m ms -> lookup (name m) ms = Some m.
Proof.
  induction ms as [|m' ms IH]; simpl; [intros _ []|].
  intros Hnd Hin. inversion Hnd as [|? ? Hn Hnd']; subst.
  destruct (String.eqb_spec (name m') (name m)) as [E|E].
  - destruct Hin as [<-|Hin]; [reflexivity|].
    exfalso. apply Hn. rewrite E. apply in_map, Hin.
  - destruct Hin as [<-|Hin]; [congruence | auto].
Qed.

(** C9: the exposition writes, for every registered metric in ascending
    name order, its type line ("gauge" or "counter") and its
    "<name> <value>" line, and leaves the metrics (values and encoder
    bookkeeping), [numWireID] and [lastDelta] as they were. *)
Theorem WritePrometheusExpositionFormat_spec (st st' : state) (out : string) :
  reachable st -> WritePrometheusExpositionFormat st = Ok out st' ->
  exists ms, Permutation ms (metrics st) /\ Sorted str_lt (map name ms) /\
    out = concat_str (map exposition_lines ms) /\
    metrics st' = metrics st /\ numWireID st' = numWireID st /\ lastDelta st' = lastDelta st.
Proof.
  intros Hr Hw. apply Write_cases in Hw as (l & Hm & ->).
  destruct (Metrics_sorted_registry st st' l Hr Hm) as (Hs & Hnd & Hp & Hms).
  assert (Hnw : numWireID st' = numWireID st /\ lastDelta st' = lastDelta st).
  { apply Metrics_cases in Hm as [(_ & _ & ->) | (_ & _ & ->)]; auto. }
  destruct (write_loop (metrics st') l EmptyString) as (ml & H1 & H2 & H3).
  { rewrite Hms. intros x Hx. apply (Permutation_in _ Hp), Hx. }
  exists ml. rewrite Hms in H2. repeat split; try tauto.
  - apply NoDup_Permutation_bis.
    + rewrite <- H1 in Hnd. clear -Hnd. induction ml; [constructor|].
      inversion Hnd; subst. constructor; auto. intros Hin; apply H1, in_map, Hin.
    + rewrite <- (length_map name ml), H1, (Permutation_length Hp), length_map. lia.
    + exact H2.
  - rewrite H1. exact Hs.
Qed.

Lemma reachable_two :
  reachable (mkState [mkMetric 3 "b_total" TypeCounter 0 None 0;
                      mkMetric 7 "a_gauge" TypeGauge 0 None 0] 0 None true []).
Proof.
  eapply reach_step; [eapply reach_step; [apply reach_init|] |].
  - apply (step_publish _ _ "b_total" TypeCounter 3); [unfold is_int64; lia | vm_compute; reflexivity].
  - apply (step_publish _ _ "a_gauge" TypeGauge 7); [unfold is_int64; lia | vm_compute; reflexivity].
Qed.

Lemma Metrics_sorted_registry_witness :
  Sorted str_lt ["a_gauge"; "b_total"]%string /\ NoDup ["a_gauge"; "b_total"]%string /\
  Permutation ["a_gauge"; "b_total"]%string ["b_total"; "a_gauge"]%string /\
  [mkMetric 3 "b_total" TypeCounter 0 None 0; mkMetric 7 "a_gauge" TypeGauge 0 None 0] =
  [mkMetric 3 "b_total" TypeCounter 0 None 0; mkMetric 7 "a_gauge" TypeGauge 0 None 0].
Proof.
  apply (Metrics_sorted_registry
           (mkState [mkMetric 3 "b_total" TypeCounter 0 None 0;
                     mkMetric 7 "a_gauge" TypeGauge 0 None 0] 0 None true [])
           (mkState [mkMetric 3 "b_total" TypeCounter 0 None 0;
                     mkMetric 7 "a_gauge" TypeGauge 0 None 0] 0 None false ["a_gauge"; "b_total"]%string)
           ["a_gauge"; "b_total"]%string);
    [apply reachable_two | vm_compute; reflexivity].
Defined.

Lemma WritePrometheusExpositionFormat_spec_witness :
  exists ms, Permutation ms [mkMetric 3 "b_total" TypeCounter 0 None 0; mkMetric 7 "a_gauge" TypeGauge 0 None 0] /\
    Sorted str_lt (map name ms) /\
    ("# TYPE a_gauge gauge" ++ newline ++ "a_gauge 7" ++ newline ++
     "# TYPE b_total counter" ++ newline ++ "b_total 3" ++ newline)%string =
      concat_str (map exposition_lines ms) /\
    [mkMetric 3 "b_total" TypeCounter 0 None 0; mkMetric 7 "a_gauge" TypeGauge 0 None 0] =
      [mkMetric 3 "b_total" TypeCounter 0 None 0; mkMetric 7 "a_gauge" TypeGauge 0 None 0] /\
    (0 : Z) = 0 /\ @None Z = None.
Proof.
  apply (WritePrometheusExpositionFormat_spec
           (mkState [mkMetric 3 "b_total" TypeCounter 0 None 0;
                     mkMetric 7 "a_gauge" TypeGauge 0 None 0] 0 None true [])
           (mkState [mkMetric 3 "b_total" TypeCounter 0 None 0;
                     mkMetric 7 "a_gauge" TypeGauge 0 None 0] 0 None false ["a_gauge"; "b_total"]%string));
    [apply reachable_two | vm_compute; reflexivity].
Defined.

(** ** Registration *)

Lemma isIllegalMetricRune_legal c : isIllegalMetricRune c = false <-> legal_char c.
Proof.
  unfold isIllegalMetricRune, legal_char; cbv zeta.
  change (nat_of_ascii "a") with 97%nat. change (nat_of_ascii "z") with 122%nat.
  change (nat_of_ascii "A") with 65%nat. change (nat_of_ascii "Z") with 90%nat.
  change (nat_of_ascii "0") with 48%nat. change (nat_of_ascii "9") with 57%nat.
  change (nat_of_ascii "_") with 95%nat.
  rewrite negb_false_iff, !orb_true_iff, !andb_true_iff, !Nat.leb_le, Nat.eqb_eq.
  tauto.
Qed.

Lemma IndexFunc_from_none f s : forall i,
  IndexFunc_from f s i = -1 -> 0 <= i -> Forall (fun c => f c = false) (list_ascii_of_string s).
Proof.
  induction s as [|c s IH]; intros i H Hi; simpl; [constructor|].
  simpl in H. destruct (f c) eqn:E; [lia|].
  constructor; [exact E | apply (IH (i + 1)); [exact H | lia]].
Qed.

Lemma IndexFunc_from_all f s : forall i,
  Forall (fun c => f c = false) (list_ascii_of_string s) -> IndexFunc_from f s i = -1.
Proof.
  induction s as [|c s IH]; intros i H; simpl; [reflexivity|].
  inversion H as [|? ? E H']; subst. rewrite E. apply IH, H'.
Qed.

Lemma valid_name_documented s : valid_name s <-> documented_name s.
Proof.
  unfold valid_name, documented_name, IndexFunc. split; intros [H1 H2]; split; auto.
  - eapply Forall_impl; [|apply (IndexFunc_from_none _ _ 0 H2); lia].
    intros c. apply isIllegalMetricRune_legal.
  - apply IndexFunc_from_all. eapply Forall_impl; [|exact H2].
    intros c. apply isIllegalMetricRune_legal.
Qed.

Lemma NewMetric_cases t nm st :
  (documented_name nm /\ ~ In nm (map name (metrics st)) /\
   NewMetric t nm st =
     Ok (mkMetric 0 nm t 0 None 0)
        (mkState (metrics st ++ [mkMetric 0 nm t 0 None 0]) (numWireID st) (lastDelta st) true (sorted st))) \/
  ((~ documented_name nm \/ In nm (map name (metrics st))) /\
   exists msg, NewMetric t nm st = Panic msg st).
Proof.
  assert (E : NewMetric t nm = (m <- NewUnpublished nm t ;; Publish m ;;; ret m))
    by (destruct t; reflexivity).
  rewrite E. unfold NewUnpublished, Publish, bind, get, ret, panic, put.
  destruct (String.eqb nm "" || negb (IndexFunc nm isIllegalMetricRune =? -1)) eqn:C.
  - right. split; [|eauto]. left. rewrite <- valid_name_documented. intros [H1 H2].
    apply String.eqb_neq in H1. rewrite H1, H2 in C. discriminate.
  - apply orb_false_iff in C as [C1 C2]. apply negb_false_iff, Z.eqb_eq in C2.
    cbn. rewrite C1.
    destruct (name_registered nm (metrics st)) eqn:R.
    + right. split; [|eauto]. right.
      unfold name_registered in R. apply existsb_exists in R as (m & Hm & Em).
      apply String.eqb_eq in Em. subst. apply in_map, Hm.
    + left. split; [apply valid_name_documented; split; [apply String.eqb_neq, C1 | exact C2]|].
      split; [apply name_registered_false, R | reflexivity].
Qed.

(** C7: constructing and registering a metric panics exactly when its
    name is empty, has a character outside [A-Za-z0-9_] or is already
    registered; a panic leaves the state as it was; and two metrics with distinct valid unregistered names are both
    registered and both listed by [Metrics]. *)
Theorem registration_spec (st : state) :
  (forall t nm,
     (is_panic (NewMetric t nm st) = true <->
        nm = EmptyString \/
        (exists c, In c (list_ascii_of_string nm) /\ ~ legal_char c) \/
        In nm (map name (metrics st))) /\
     (forall msg st0, NewMetric t nm st = Panic msg st0 -> st0 = st)) /\
  (forall t1 t2 a b,
     a <> b -> documented_name a -> documented_name b ->
     ~ In a (map name (metrics st)) -> ~ In b (map name (metrics st)) ->
     exists m1 st1 m2 st2 l st3,
       NewMetric t1 a st = Ok m1 st1 /\ NewMetric t2 b st1 = Ok m2 st2 /\
       Metrics st2 = Ok l st3 /\ In a l /\ In b l).
Proof.
  split.
  - intros t nm.
    assert (Hdoc : ~ documented_name nm <->
                   nm = EmptyString \/ exists c, In c (list_ascii_of_string nm) /\ ~ legal_char c).
    { unfold documented_name. split.
      - intros H. destruct (String.eqb_spec nm EmptyString) as [E|E]; [left; exact E|right].
        assert (Hc : ~ Forall legal_char (list_ascii_of_string nm)) by tauto.
        clear -Hc. induction (list_ascii_of_string nm) as [|c l IH]; [exfalso; apply Hc; constructor|].
        destruct (isIllegalMetricRune c) eqn:Ec.
        + exists c. split; [left; reflexivity|]. rewrite <- isIllegalMetricRune_legal, Ec. discriminate.
        + destruct IH as (c' & H1 & H2).
          * intros H. apply Hc. constructor; [apply isIllegalMetricRune_legal, Ec | exact H].
          * exists c'. split; [right; exact H1 | exact H2].
      - intros [H | (c & H1 & H2)] [H3 H4]; [contradiction|].
        apply H2. rewrite Forall_forall in H4. apply H4, H1. }
    destruct (NewMetric_cases t nm st) as [(Hv & Hf & ->) | (Hb & msg & ->)].
    + split; [|discriminate]. cbn. split; [discriminate|].
      intros [H | [H | H]]; [| |contradiction]; exfalso; apply Hdoc; auto.
    + split; [|intros msg' st0 E; injection E; auto].
      cbn. split; [intros _|reflexivity]. destruct Hb as [Hb|Hb]; [|right; right; exact Hb].
      apply Hdoc in Hb. tauto.
  - intros t1 t2 a b Hab Ha Hb Hna Hnb.
    destruct (NewMetric_cases t1 a st) as [(_ & _ & E1) | ([H|H] & _)]; [|contradiction|contradiction].
    set (st1 := mkState (metrics st ++ [mkMetric 0 a t1 0 None 0]) (numWireID st) (lastDelta st) true (sorted st)) in E1.
    destruct (NewMetric_cases t2 b st1) as [(_ & _ & E2) | ([H|H] & _)]; [| contradiction |].
    + set (st2 := mkState (metrics st1 ++ [mkMetric 0 b t2 0 None 0]) (numWireID st1) (lastDelta st1) true (sorted st1)) in E2.
      assert (Hm : Metrics st2 = Ok (sort_names (map name (metrics st2)))
                     (mkState (metrics st2) (numWireID st2) (lastDelta st2) false (sort_names (map name (metrics st2)))))
        by reflexivity.
      do 6 eexists. split; [exact E1 | split; [exact E2 | split; [exact Hm|]]].
      split; apply (Permutation_in _ (Permutation_sym (sort_names_perm _)));
        cbn; rewrite !map_app, <- app_assoc, in_app_iff; cbn; auto.
    + exfalso. cbn in H. rewrite map_app, in_app_iff in H. cbn in H. tauto.
Qed.


(** ** The frame alphabet *)

Lemma chars_app (a b : string) :
  list_ascii_of_string (a ++ b) = (list_ascii_of_string a ++ list_ascii_of_string b)%list.
Proof. induction a as [|c a IH]; simpl; [reflexivity | rewrite IH; reflexivity]. Qed.

Lemma get_In n s c : String.get n s = Some c -> In c (list_ascii_of_string s).
Proof.
  revert n. induction s as [|c' s IH]; intros [|n]; simpl; try discriminate.
  - intros H. injection H as ->. left; reflexivity.
  - intros H. right. eapply IH, H.
Qed.

Lemma hex_char_frame i : frame_char (hex_char i).
Proof.
  unfold frame_char, hex_char. right; right; right; left.
  destruct (String.get (Z.to_nat i) hextable) eqn:E.
  - apply (get_In _ _ _ E).
  - simpl. auto.
Qed.

Lemma hex_Encode_frame bs : Forall frame_char (list_ascii_of_string (hex_Encode bs)).
Proof.
  induction bs as [|b bs IH]; simpl; [constructor|].
  constructor; [apply hex_char_frame|]. constructor; [apply hex_char_frame | exact IH].
Qed.

Ltac frame_chars :=
  repeat match goal with
         | |- Forall frame_char (list_ascii_of_string (_ ++ _)) =>
             rewrite chars_app; apply Forall_app; split
         | |- Forall frame_char (list_ascii_of_string (hex_Encode _)) => apply hex_Encode_frame
         | |- Forall frame_char (list_ascii_of_string (String _ EmptyString)) =>
             constructor; [unfold frame_char; auto | constructor]
         end.

Lemma writeHexVarint_frame x buf :
  Forall frame_char (list_ascii_of_string buf) ->
  Forall frame_char (list_ascii_of_string (writeHexVarint x buf)).
Proof. intros H. unfold writeHexVarint. frame_chars; auto. Qed.

Lemma char_frame buf c :
  Forall frame_char (list_ascii_of_string buf) -> frame_char c ->
  Forall frame_char (list_ascii_of_string (buf ++ String c EmptyString)).
Proof.
  intros Hb Hc. rewrite chars_app. apply Forall_app. split; [exact Hb|].
  constructor; [exact Hc | constructor].
Qed.

Lemma writeName_frame nm buf :
  Forall frame_char (list_ascii_of_string buf) ->
  Forall legal_char (list_ascii_of_string nm) ->
  Forall frame_char (list_ascii_of_string (writeName nm buf)).
Proof.
  intros Hb Hn. unfold writeName. rewrite chars_app. apply Forall_app. split.
  - apply writeHexVarint_frame, char_frame; [exact Hb | unfold frame_char; auto].
  - eapply Forall_impl; [|exact Hn]. unfold frame_char; auto.
Qed.

Lemma writeValue_frame wid x buf :
  Forall frame_char (list_ascii_of_string buf) ->
  Forall frame_char (list_ascii_of_string (writeValue wid x buf)).
Proof.
  intros Hb. unfold writeValue.
  apply writeHexVarint_frame, writeHexVarint_frame, char_frame; [exact Hb | unfold frame_char; auto].
Qed.

Lemma writeDelta_frame wid x buf :
  Forall frame_char (list_ascii_of_string buf) ->
  Forall frame_char (list_ascii_of_string (writeDelta wid x buf)).
Proof.
  intros Hb. unfold writeDelta.
  apply writeHexVarint_frame, writeHexVarint_frame, char_frame; [exact Hb | unfold frame_char; auto].
Qed.

Lemma encode_metric_frame now m enc nw :
  Forall frame_char (list_ascii_of_string (opt_buf enc)) ->
  Forall legal_char (list_ascii_of_string (name m)) ->
  Forall frame_char (list_ascii_of_string (opt_buf (snd (fst (encode_metric now m enc nw))))).
Proof.
  intros Hb Hn. unfold encode_metric. cbv zeta.
  destruct (wrap64 (Value m - lastLogVal m) =? 0); [exact Hb|].
  change (match enc with Some b => b | None => EmptyString end) with (opt_buf enc).
  destruct (wireID m =? 0);
    destruct (match lastNamed m with Some t => _ | None => true end); cbn [fst snd opt_buf];
    first [apply writeValue_frame, writeName_frame; assumption | apply writeDelta_frame; assumption].
Qed.

Lemma encode_loop_frame_chars now ms : forall enc nw,
  Forall (fun m => Forall legal_char (list_ascii_of_string (name m))) ms ->
  Forall frame_char (list_ascii_of_string (opt_buf enc)) ->
  Forall frame_char (list_ascii_of_string (opt_buf (snd (fst (encode_loop now ms enc nw))))).
Proof.
  induction ms as [|m ms IH]; intros enc nw Hms Hb; simpl; [exact Hb|].
  inversion Hms as [|? ? Hm Hms']; subst.
  pose proof (encode_metric_frame now m enc nw Hb Hm) as H1.
  destruct (encode_metric now m enc nw) as [[m' enc1] n1].
  specialize (IH enc1 n1 Hms' H1).
  destruct (encode_loop now ms enc1 n1) as [[ms' enc'] nw']. exact IH.
Qed.

Lemma frame_char_json_safe c : frame_char c -> json_safe_char c.
Proof.
  unfold frame_char, json_safe_char, legal_char, lower_hex_digits.
  intros [-> | [-> | [-> | [H | H]]]]; cbv zeta; try (vm_compute; lia).
  - simpl in H. repeat (destruct H as [<- | H]; [vm_compute; lia|]). contradiction.
  - lia.
Qed.

(** C5: whatever names (over [A-Za-z0-9_]) were registered and whatever
    int64 values were set or added, a frame consists only of 'N', 'S',
    'I', lowercase hex digits and name characters, and so holds no
    double quote, backslash or control character. *)
Theorem EncodeLogTailMetricsDelta_json_safe (st st' : state) (now : Z) (out : string) :
  reachable st -> EncodeLogTailMetricsDelta now st = Ok out st' ->
  Forall (fun c => frame_char c /\ json_safe_char c) (list_ascii_of_string out).
Proof.
  intros Hr He.
  assert (Hf : Forall frame_char (list_ascii_of_string out)).
  { apply EncodeLogTailMetricsDelta_cases in He as [(_ & ->) | (_ & enc & E & -> & _)];
      [constructor|].
    destruct (reachable_Inv_registry st Hr) as (_ & Hval & _ & _).
    pose proof (encode_loop_frame_chars now (metrics st) None (numWireID st)) as H.
    rewrite E in H. apply H; [|constructor].
    eapply Forall_impl; [|exact Hval]. intros m Hm. apply valid_name_documented, Hm. }
  eapply Forall_impl; [|exact Hf]. intros c Hc. split; [exact Hc | apply frame_char_json_safe, Hc].
Qed.

Lemma EncodeLogTailMetricsDelta_json_safe_witness :
  Forall (fun c => frame_char c /\ json_safe_char c)
    (list_ascii_of_string "N0eb_totalS0206N0ea_gaugeS040e").
Proof.
  apply (EncodeLogTailMetricsDelta_json_safe
           (mkState [mkMetric 3 "b_total" TypeCounter 0 None 0;
                     mkMetric 7 "a_gauge" TypeGauge 0 None 0] 0 None true [])
           (mkState [mkMetric 3 "b_total" TypeCounter 1 (Some (20 * Second)) 3;
                     mkMetric 7 "a_gauge" TypeGauge 2 (Some (20 * Second)) 7]
              2 (Some (20 * Second)) true [])
           (20 * Second));
    [apply reachable_two | vm_compute; reflexivity].
Defined.

(** ** Wire identifiers *)

Lemma encode_metric_wire now m enc n :
  0 <= n -> (wireID m = 0 -> n + 1 < 2 ^ 63) ->
  let '(m', _, n1) := encode_metric now m enc n in
  name m' = name m /\
  (((wireID m <> 0 \/ wrap64 (Value m - lastLogVal m) = 0) /\ wireID m' = wireID m /\ n1 = n) \/
   (wireID m = 0 /\ wrap64 (Value m - lastLogVal m) <> 0 /\ wireID m' = n + 1 /\ n1 = n + 1)).
Proof.
  intros Hn Hb. unfold encode_metric. cbv zeta.
  destruct (Z.eqb_spec (wrap64 (Value m - lastLogVal m)) 0) as [Hd|Hd];
    [split; [reflexivity | left; auto]|].
  destruct (Z.eqb_spec (wireID m) 0) as [Hw|Hw];
    [rewrite wrap64_id by (specialize (Hb Hw); unfold is_int64; lia)|];
    destruct (match lastNamed m with Some t => _ | None => true end); cbn;
    (split; [reflexivity|]); [right | right | left | left]; auto.
Qed.

Lemma zeros_cons m ms :
  zeros (m :: ms) = Nat.add (if wireID m =? 0 then 1%nat else 0%nat) (zeros ms).
Proof. unfold zeros. cbn. destruct (wireID m =? 0); reflexivity. Qed.

Lemma zseq_app n a b : zseq n (a + b) = (zseq n a ++ zseq (n + Z.of_nat a) b)%list.
Proof.
  revert n. induction a as [|a IH]; intros n; cbn [zseq Nat.add app].
  - rewrite Z.add_0_r. reflexivity.
  - rewrite IH. f_equal. f_equal. f_equal. lia.
Qed.

Lemma encode_loop_wire now ms : forall enc n,
  0 <= n -> n + Z.of_nat (zeros ms) < 2 ^ 63 ->
  let '(ms', _, n') := encode_loop now ms enc n in
  exists k, n' = n + Z.of_nat k /\
    Permutation (wids ms') (wids ms ++ zseq (n + 1) k) /\
    new_ids ms ms' = zseq (n + 1) k /\
    Forall2 (fun m m' =>
      name m' = name m /\ (wireID m <> 0 -> wireID m' = wireID m) /\
      (wireID m' = wireID m \/ n < wireID m' <= n') /\
      (wireID m = 0 -> (wireID m' <> 0 <-> wrap64 (Value m - lastLogVal m) <> 0))) ms ms'.
Proof.
  induction ms as [|m ms IH]; intros enc n Hn Hb.
  - exists O. cbn [encode_loop zseq new_ids]. rewrite app_nil_r. repeat split; auto; lia.
  - rewrite zeros_cons in Hb. cbn [encode_loop].
    assert (Hb1 : wireID m = 0 -> n + 1 < 2 ^ 63)
      by (intros Hw0; rewrite Hw0 in Hb; cbn in Hb; lia).
    pose proof (encode_metric_wire now m enc n Hn Hb1) as Hm.
    destruct (encode_metric now m enc n) as [[m' enc1] n1].
    destruct Hm as (Hname & [(Hk & Hw & ->) | (Hw0 & Hd & Hw & ->)]).
    + specialize (IH enc1 n Hn ltac:(destruct (wireID m =? 0); lia)).
      destruct (encode_loop now ms enc1 n) as [[ms' enc'] n'].
      destruct IH as (k & -> & Hp & Hnew & Hf). exists k.
      unfold wids in *. cbn [map filter new_ids]. rewrite Hw.
      destruct (Z.eqb_spec (wireID m) 0) as [E|E]; cbn [negb andb].
      * destruct Hk as [Hk|Hk]; [contradiction|].
        repeat split; auto. constructor; [|exact Hf].
        repeat split; auto; try (left; reflexivity); intros; congruence.
      * repeat split; [apply perm_skip, Hp | exact Hnew |]. constructor; [|exact Hf].
        repeat split; auto; try (left; reflexivity); intros; congruence.
    + rewrite Hw0 in Hb. cbn [Z.eqb] in Hb.
      specialize (IH enc1 (n + 1) ltac:(lia) ltac:(lia)).
      destruct (encode_loop now ms enc1 (n + 1)) as [[ms' enc'] n'].
      destruct IH as (k & -> & Hp & Hnew & Hf). exists (S k).
      unfold wids in *. cbn [map filter new_ids zseq]. rewrite Hw, Hw0.
      replace (n + 1 =? 0) with false by (symmetry; apply Z.eqb_neq; lia).
      cbn [negb andb Z.eqb]. repeat split.
      * lia.
      * rewrite Hp. apply Permutation_middle.
      * rewrite Hnew. reflexivity.
      * constructor.
        -- repeat split; auto; [contradiction | right; lia | intros _; lia].
        -- eapply Forall2_impl; [|exact Hf]. intros a a' (H1 & H2 & H3 & H4).
           split; [exact H1 | split; [exact H2 | split; [destruct H3; [left | right]; lia | exact H4]]].
Qed.

Lemma zseq_length n k : List.length (zseq n k) = k.
Proof. revert n; induction k; intros n; cbn; auto. Qed.

Lemma wids_zeros_length ms : (List.length (wids ms) + zeros ms)%nat = List.length ms.
Proof.
  induction ms as [|m ms IH]; [reflexivity|].
  rewrite zeros_cons. unfold wids in *. cbn [map filter].
  destruct (wireID m =? 0); cbn [negb List.length]; lia.
Qed.

Lemma filter_perm {A} (f : A -> bool) l l' :
  Permutation l l' -> Permutation (filter f l) (filter f l').
Proof.
  induction 1; cbn; auto.
  - destruct (f x); auto.
  - destruct (f x), (f y); auto using perm_swap.
  - eapply perm_trans; eauto.
Qed.

Lemma wids_perm ms ms' : Permutation ms ms' -> Permutation (wids ms) (wids ms').
Proof. intros H. apply filter_perm, Permutation_map, H. Qed.

Lemma wids_publish ms m : wireID m = 0 -> wids (ms ++ [m]) = wids ms.
Proof.
  intros H. unfold wids. rewrite map_app, filter_app. cbn. rewrite H. cbn.
  apply app_nil_r.
Qed.

Lemma update_metric_wids nm f st :
  (forall m, wireID (f m) = wireID m) ->
  wids (metrics (update_metric nm f st)) = wids (metrics st).
Proof.
  intros Hf. unfold wids, update_metric, set_metrics. cbn. rewrite map_map. f_equal.
  apply map_ext. intros m. destruct (String.eqb (name m) nm); auto.
Qed.

Lemma Forall2_keeps_fresh n n' ms ms' :
  Forall2 (fun m m' => name m' = name m /\ (wireID m <> 0 -> wireID m' = wireID m) /\
                       (wireID m' = wireID m \/ n < wireID m' <= n')) ms ms' ->
  keeps_wids ms ms' /\ fresh_wids n n' ms ms'.
Proof.
  unfold keeps_wids, fresh_wids.
  induction 1 as [|a a' l l' (H1 & H2 & H3) _ [IHk IHf]]; split; cbn; try tauto.
  - intros m [<- | Hm] Hw.
    + exists a'. auto.
    + destruct (IHk m Hm Hw) as (m' & ? & ? & ?). exists m'. auto.
  - intros m' [<- | Hm] Hw.
    + destruct H3 as [H3 | H3]; [left; exists a; auto | right; exact H3].
    + destruct (IHf m' Hm Hw) as [(m & ? & ? & ?) | ?]; [left; exists m; auto | right; auto].
Qed.

Lemma update_keeps_fresh nm f st n :
  (forall m, name (f m) = name m /\ wireID (f m) = wireID m) ->
  keeps_wids (metrics st) (metrics (update_metric nm f st)) /\
  fresh_wids n n (metrics st) (metrics (update_metric nm f st)).
Proof.
  intros Hf. apply Forall2_keeps_fresh. unfold update_metric, set_metrics. cbn.
  induction (metrics st) as [|m ms IH]; cbn; constructor; auto.
  destruct (String.eqb (name m) nm); [destruct (Hf m) as [-> ->]|]; auto.
Qed.

Lemma keeps_fresh_refl n ms : keeps_wids ms ms /\ fresh_wids n n ms ms.
Proof. split; intros m Hm Hw; [exists m | left; exists m]; auto. Qed.

Lemma step_length st st' : step st st' -> (List.length (metrics st) <= List.length (metrics st'))%nat.
Proof.
  destruct 1 as [st st' nm t x Hx Hp | st nm n Hn | st nm x Hx | st st' l Hm
                 | st st' out Hw | st st' now out He | st ms Hperm].
  - apply publish_step_cases in Hp as (_ & _ & ->). cbn. rewrite length_app. lia.
  - unfold update_metric, set_metrics. cbn. rewrite length_map. lia.
  - unfold update_metric, set_metrics. cbn. rewrite length_map. lia.
  - apply Metrics_cases in Hm as [(_ & _ & ->) | (_ & _ & ->)]; cbn; lia.
  - apply Write_cases in Hw as (l & Hm & _).
    apply Metrics_cases in Hm as [(_ & _ & ->) | (_ & _ & ->)]; cbn; lia.
  - apply EncodeLogTailMetricsDelta_cases in He as [(-> & _) | (_ & enc & E & _ & _)]; [lia|].
    pose proof (encode_loop_shape now (metrics st) None (numWireID st)) as Hsh.
    rewrite E in Hsh. apply Forall2_length in Hsh. lia.
  - unfold set_metrics. cbn. apply Permutation_length in Hperm. lia.
Qed.

Lemma Inv_wire_count st : Inv_wire st -> List.length (wids (metrics st)) = Z.to_nat (numWireID st).
Proof. intros [_ Hp]. rewrite (Permutation_length Hp). apply zseq_length. Qed.

Lemma encode_step_wire now st out st' :
  Inv_wire st -> Z.of_nat (List.length (metrics st')) < 2 ^ 63 ->
  EncodeLogTailMetricsDelta now st = Ok out st' ->
  rate_limited now (lastDelta st) = false ->
  exists k, numWireID st' = numWireID st + Z.of_nat k /\
    Permutation (wids (metrics st')) (wids (metrics st) ++ zseq (numWireID st + 1) k) /\
    new_ids (metrics st) (metrics st') = zseq (numWireID st + 1) k /\
    Forall2 (fun m m' =>
      name m' = name m /\ (wireID m <> 0 -> wireID m' = wireID m) /\
      (wireID m' = wireID m \/ numWireID st < wireID m' <= numWireID st') /\
      (wireID m = 0 -> (wireID m' <> 0 <-> wrap64 (Value m - lastLogVal m) <> 0)))
      (metrics st) (metrics st').
Proof.
  intros Hi Hb He Hrl.
  unfold EncodeLogTailMetricsDelta, bind, get in He. cbv beta in He.
  rewrite Hrl in He. cbv beta iota zeta in He.
  cbn [metrics numWireID lastDelta sortedDirty sorted] in He.
  destruct (encode_loop now (metrics st) None (numWireID st)) as [[ms enc] nw] eqn:E.
  unfold put, ret in He.
  assert (Hst' : metrics st' = ms /\ numWireID st' = nw)
    by (destruct enc; injection He as _ <-; split; reflexivity).
  destruct Hst' as [<- <-].
  pose proof (encode_loop_shape now (metrics st) None (numWireID st)) as Hsh.
  rewrite E in Hsh. apply Forall2_length in Hsh.
  pose proof (Inv_wire_count st Hi) as Hc. pose proof (wids_zeros_length (metrics st)) as Hz.
  destruct Hi as [Hn _].
  pose proof (encode_loop_wire now (metrics st) None (numWireID st) Hn ltac:(lia)) as Hw.
  rewrite E in Hw. exact Hw.
Qed.

Lemma step_wire st st' :
  Inv_wire st -> Z.of_nat (List.length (metrics st')) < 2 ^ 63 -> step st st' ->
  Inv_wire st' /\ keeps_wids (metrics st) (metrics st') /\
  fresh_wids (numWireID st) (numWireID st') (metrics st) (metrics st') /\
  numWireID st <= numWireID st'.
Proof.
  intros Hi Hb Hs. pose proof Hi as [Hn Hp].
  destruct Hs as [st st' nm t x Hx Hpub | st nm n Hn' | st nm x Hx | st st' l Hm
                 | st st' out Hw | st st' now out He | st ms Hperm].
  - apply publish_step_cases in Hpub as (_ & _ & ->).
    unfold Inv_wire; cbn [metrics numWireID]. rewrite wids_publish by reflexivity.
    repeat split; auto; try lia.
    + intros m Hm Hw. exists m. split; [apply in_or_app; left; exact Hm | auto].
    + intros m' Hm Hw. left. exists m'. split; [|auto].
      apply in_app_or in Hm as [Hm | [<- | []]]; [exact Hm | contradiction].
  - destruct (update_keeps_fresh nm (Add n) st (numWireID st)) as [Hk Hf]; [intros; split; reflexivity|].
    change (numWireID (update_metric nm _ st)) with (numWireID st).
    unfold Inv_wire. rewrite update_metric_wids by reflexivity. repeat split; auto; lia.
  - destruct (update_keeps_fresh nm (Set_ x) st (numWireID st)) as [Hk Hf]; [intros; split; reflexivity|].
    change (numWireID (update_metric nm _ st)) with (numWireID st).
    unfold Inv_wire. rewrite update_metric_wids by reflexivity. repeat split; auto; lia.
  - apply Metrics_cases in Hm as [(_ & _ & ->) | (_ & _ & ->)];
      destruct (keeps_fresh_refl (numWireID st) (metrics st));
      unfold Inv_wire; cbn [metrics numWireID]; repeat split; auto; lia.
  - apply Write_cases in Hw as (l & Hm & _).
    apply Metrics_cases in Hm as [(_ & _ & ->) | (_ & _ & ->)];
      destruct (keeps_fresh_refl (numWireID st) (metrics st));
      unfold Inv_wire; cbn [metrics numWireID]; repeat split; auto; lia.
  - destruct (rate_limited now (lastDelta st)) eqn:Hrl.
    + apply EncodeLogTailMetricsDelta_cases in He as [(-> & _) | (Hrl' & _)]; [|congruence].
      destruct (keeps_fresh_refl (numWireID st) (metrics st));
      unfold Inv_wire; cbn [metrics numWireID]; repeat split; auto; lia.
    + destruct (encode_step_wire now st out st' Hi Hb He Hrl) as (k & Hn1 & Hp1 & _ & Hf).
      destruct (Forall2_keeps_fresh (numWireID st) (numWireID st') (metrics st) (metrics st'))
        as [Hk Hfr].
      { eapply Forall2_impl; [|exact Hf]. intros a a' (H1 & H2 & H3 & _). auto. }
      repeat split; auto; try lia.
      rewrite Hp1, Hp, Hn1, Z2Nat.inj_add, Nat2Z.id, zseq_app, Z2Nat.id by lia.
      rewrite Z.add_comm. reflexivity.
  - unfold Inv_wire, set_metrics; cbn. repeat split; auto; try lia.
    + rewrite <- Hp. symmetry. apply wids_perm, Hperm.
    + intros m Hm Hw. exists m. split; [apply (Permutation_in _ Hperm), Hm | auto].
    + intros m' Hm Hw. left. exists m'. split; [|auto].
      apply (Permutation_in _ (Permutation_sym Hperm)), Hm.
Qed.

Lemma reachable_Inv_wire st :
  reachable st -> Z.of_nat (List.length (metrics st)) < 2 ^ 63 -> Inv_wire st.
Proof.
  induction 1 as [|st st' Hr IH Hs]; intros Hb.
  - unfold Inv_wire. cbn. split; [lia | constructor].
  - pose proof (step_length st st' Hs).
    apply (step_wire st st'); [apply IH; lia | exact Hb | exact Hs].
Qed.

Lemma zseq_In n k x : In x (zseq n k) -> n <= x < n + Z.of_nat k.
Proof.
  revert n. induction k as [|k IH]; intros n; cbn; [tauto|].
  intros [<- | H]; [lia | apply IH in H; lia].
Qed.

Lemma zseq_NoDup n k : NoDup (zseq n k).
Proof.
  revert n. induction k as [|k IH]; intros n; cbn; constructor; auto.
  intros H. apply zseq_In in H. lia.
Qed.

Lemma Forall_Forall2 {A B} (P : A -> Prop) (R : A -> B -> Prop) l l' :
  Forall P l -> Forall2 R l l' -> Forall2 (fun a b => P a /\ R a b) l l'.
Proof. intros HP HR. induction HR; inversion HP; subst; constructor; auto. Qed.

(** C6: along any execution in which fewer than [2^63] metrics are
    registered, each step keeps the wireIDs in use pairwise distinct; the
    ones in use before the step lie in [1 .. numWireID]; a metric that has
    a wireID keeps it, under its name; a wireID that appears in the step
    is either one its metric already had or a fresh one above every
    previous one (in [numWireID st + 1 .. numWireID st']). In an encode
    call that is not rate-limited, the new wireIDs, read in the order the
    encoder visits the metrics, are [numWireID st + 1], [numWireID st + 2],
    ... with no gap, and a metric without a wireID gets one exactly when
    its value differs from its last sent value. *)
Theorem wireID_invariants (st st' : state) :
  reachable st -> step st st' -> Z.of_nat (List.length (metrics st')) < 2 ^ 63 ->
  NoDup (wids (metrics st')) /\
  Forall (fun w => 0 < w <= numWireID st) (wids (metrics st)) /\
  keeps_wids (metrics st) (metrics st') /\
  fresh_wids (numWireID st) (numWireID st') (metrics st) (metrics st') /\
  (forall now out, EncodeLogTailMetricsDelta now st = Ok out st' ->
   rate_limited now (lastDelta st) = false ->
   new_ids (metrics st) (metrics st') =
     zseq (numWireID st + 1) (Z.to_nat (numWireID st' - numWireID st)) /\
   Forall2 (fun m m' => name m' = name m /\
                        (wireID m = 0 -> (wireID m' <> 0 <-> Value m <> lastLogVal m)))
     (metrics st) (metrics st')).
Proof.
  intros Hr Hs Hb.
  pose proof (step_length st st' Hs) as Hl.
  assert (Hi : Inv_wire st) by (apply reachable_Inv_wire; [exact Hr | lia]).
  destruct (step_wire st st' Hi Hb Hs) as ([Hn' Hp'] & Hk & Hf & _).
  pose proof Hi as [Hn Hp].
  split; [apply (Permutation_NoDup (Permutation_sym Hp')), zseq_NoDup|].
  split.
  { apply (Permutation_Forall (Permutation_sym Hp)). apply Forall_forall.
    intros w Hw. apply zseq_In in Hw. lia. }
  split; [exact Hk|]. split; [exact Hf|].
  intros now out He Hrl.
  destruct (encode_step_wire now st out st' Hi Hb He Hrl) as (k & Hk' & _ & Hnew & Hf2).
  split; [rewrite Hnew, Hk'; f_equal; lia|].
  destruct (reachable_Inv_registry st Hr) as (_ & _ & Hint & _).
  pose proof (Forall_Forall2 _ _ _ _ Hint Hf2) as H.
  eapply Forall2_impl; [|exact H]. intros m m' ([Hv1 Hv2] & H1 & _ & _ & H4).
  split; [exact H1|]. intros Hw. rewrite (H4 Hw).
  pose proof (wrap64_sub_0 (Value m) (lastLogVal m) Hv1 Hv2) as E.
  split; intros H5 H6; apply H5.
  - apply Z.eqb_eq. rewrite E. apply Z.eqb_eq, H6.
  - apply Z.eqb_eq. rewrite <- E. apply Z.eqb_eq, H6.
Qed.

Lemma reachable_wire_demo : reachable wire_demo_before.
Proof.
  eapply reach_step; [eapply reach_step; [apply reach_init|] |].
  - apply (step_publish _ _ "b_total" TypeCounter 0); [unfold is_int64; lia | vm_compute; reflexivity].
  - apply (step_publish _ _ "a_gauge" TypeGauge 7); [unfold is_int64; lia | vm_compute; reflexivity].
Qed.

Lemma wireID_invariants_witness :
  NoDup (wids (metrics wire_demo_after)) /\
  Forall (fun w => 0 < w <= numWireID wire_demo_before) (wids (metrics wire_demo_before)) /\
  keeps_wids (metrics wire_demo_before) (metrics wire_demo_after) /\
  fresh_wids (numWireID wire_demo_before) (numWireID wire_demo_after)
    (metrics wire_demo_before) (metrics wire_demo_after) /\
  (forall now out, EncodeLogTailMetricsDelta now wire_demo_before = Ok out wire_demo_after ->
   rate_limited now (lastDelta wire_demo_before) = false ->
   new_ids (metrics wire_demo_before) (metrics wire_demo_after) =
     zseq (numWireID wire_demo_before + 1)
       (Z.to_nat (numWireID wire_demo_after - numWireID wire_demo_before)) /\
   Forall2 (fun m m' => name m' = name m /\
                        (wireID m = 0 -> (wireID m' <> 0 <-> Value m <> lastLogVal m)))
     (metrics wire_demo_before) (metrics wire_demo_after)).
Proof.
  apply (wireID_invariants wire_demo_before wire_demo_after).
  - apply reachable_wire_demo.
  - apply (step_encode _ _ (20 * Second) "N0ea_gaugeS020e"). vm_compute. reflexivity.
  - vm_compute. reflexivity.
Defined.

(** ** Decoding what the writers produce *)

Lemma hex_val_digit d : 0 <= d < 16 -> hex_val (lower_hex_digit d) = Some d.
Proof.
  intros Hd.
  assert (H : In d [0; 1; 2; 3; 4; 5; 6; 7; 8; 9; 10; 11; 12; 13; 14; 15]) by (simpl; lia).
  repeat (destruct H as [<- | H]; [reflexivity|]). contradiction.
Qed.

Lemma read_byte_hex b bs rest :
  0 <= b < 256 -> read_byte (hex_spec (b :: bs) ++ rest) = Some (b, (hex_spec bs ++ rest)%string).
Proof.
  intros Hb. cbn [hex_spec String.append read_byte].
  assert (0 <= b / 16 < 16) by (split; [apply Z.div_pos | apply Z.div_lt_upper_bound]; lia).
  pose proof (Z.mod_pos_bound b 16 ltac:(lia)).
  rewrite !hex_val_digit by lia.
  rewrite <- Z.div_mod by lia. reflexivity.
Qed.

Lemma read_uvarint_spec u bs rest :
  base128 u bs -> Forall (fun b => 0 <= b < 256) bs ->
  forall fuel, (List.length bs <= fuel)%nat ->
  read_uvarint fuel (hex_spec bs ++ rest) = Some (u, rest).
Proof.
  induction 1 as [u Hu | u bs Hu _ IH]; intros Hbs [|fuel] Hf; cbn [List.length] in Hf; try lia;
    inversion Hbs as [|? ? Hb Hbs']; subst; cbn [read_uvarint]; rewrite read_byte_hex by exact Hb.
  - cbn [hex_spec String.append]. destruct (Z.ltb_spec u 128); [reflexivity | lia].
  - pose proof (Z.mod_pos_bound u 128 ltac:(lia)).
    destruct (Z.ltb_spec (128 + u mod 128) 128); [lia|].
    rewrite (IH Hbs' fuel) by lia. f_equal. f_equal.
    rewrite (Z.div_mod u 128) at 3 by lia. ring.
Qed.

Lemma base128_length u bs :
  base128 u bs -> forall k, u < 128 ^ Z.of_nat (S k) -> (List.length bs <= S k)%nat.
Proof.
  induction 1 as [u Hu | u bs Hu _ IH]; intros k Hk; cbn [List.length]; [lia|].
  destruct k as [|k]; [cbn in Hk; lia|].
  assert (u / 128 < 128 ^ Z.of_nat (S k)).
  { apply Z.div_lt_upper_bound; [lia|].
    replace (Z.of_nat (S (S k))) with (Z.succ (Z.of_nat (S k))) in Hk by lia.
    rewrite Z.pow_succ_r in Hk by lia. lia. }
  specialize (IH k H). lia.
Qed.

Lemma unzigzag_zigzag x : unzigzag (zigzag x) = x.
Proof.
  unfold unzigzag, zigzag. destruct (Z.leb_spec 0 x).
  - rewrite Z.even_mul. cbn [Z.even orb]. rewrite Z.mul_comm, Z.div_mul by lia. reflexivity.
  - replace (- 2 * x - 1) with (2 * (- x - 1) + 1) by ring.
    rewrite Z.even_add, Z.even_mul. cbn [Z.even orb Bool.eqb].
    replace (2 * (- x - 1) + 1 + 1) with ((- x) * 2) by ring.
    rewrite Z.div_mul by lia. ring.
Qed.

Lemma read_varint_spec x rest :
  is_int64 x -> read_varint (hex_Encode (PutVarint x) ++ rest) = Some (x, rest).
Proof.
  intros Hx. destruct (hex_varint_PutVarint x Hx) as (bs & Hb & Hby & ->).
  unfold read_varint. pose proof (zigzag_range x Hx) as Hz.
  rewrite (read_uvarint_spec _ _ rest Hb Hby).
  - rewrite unzigzag_zigzag. reflexivity.
  - apply (base128_length _ _ Hb 9). cbn. lia.
Qed.

Lemma str_length_app (a b : string) :
  String.length (a ++ b) = (String.length a + String.length b)%nat.
Proof. induction a as [|c a IH]; cbn; auto. Qed.

Lemma substring_full (s : string) : substring 0 (String.length s) s = s.
Proof. induction s as [|c s IH]; cbn; [reflexivity | rewrite IH; reflexivity]. Qed.

Lemma substring_app_l (a b : string) : substring 0 (String.length a) (a ++ b) = a.
Proof.
  induction a as [|c a IH]; cbn; [destruct b; reflexivity | rewrite IH; reflexivity].
Qed.

Lemma substring_app_r (a b : string) :
  substring (String.length a) (String.length b) (a ++ b) = b.
Proof. induction a as [|c a IH]; cbn; [apply substring_full | exact IH]. Qed.

Lemma writeName_str nm rest :
  (writeName nm EmptyString ++ rest)%string =
  String "N" (hex_Encode (PutVarint (Z.of_nat (String.length nm))) ++ (nm ++ rest)).
Proof.
  unfold writeName, writeHexVarint. cbn [String.append]. rewrite <- str_app_assoc. reflexivity.
Qed.

Lemma writeValue_str w x rest :
  (writeValue w x EmptyString ++ rest)%string =
  String "S" (hex_Encode (PutVarint w) ++ (hex_Encode (PutVarint x) ++ rest)).
Proof.
  unfold writeValue, writeHexVarint. cbn [String.append]. rewrite <- str_app_assoc. reflexivity.
Qed.

Lemma writeDelta_str w x rest :
  (writeDelta w x EmptyString ++ rest)%string =
  String "I" (hex_Encode (PutVarint w) ++ (hex_Encode (PutVarint x) ++ rest)).
Proof.
  unfold writeDelta, writeHexVarint. cbn [String.append]. rewrite <- str_app_assoc. reflexivity.
Qed.

Lemma parse_record_string r rest :
  record_ok r -> parse_record (record_string r ++ rest) = Some (r, rest).
Proof.
  destruct r as [nm | w x | w d]; cbn [record_ok record_string].
  - intros Hn. rewrite writeName_str. cbn [parse_record Ascii.eqb Bool.eqb andb].
    rewrite read_varint_spec by (unfold is_int64; lia).
    rewrite Nat2Z.id, str_length_app.
    replace ((0 <=? Z.of_nat (String.length nm)) && Nat.leb (String.length nm) (String.length nm + String.length rest))
      with true by (symmetry; apply andb_true_intro; split; [apply Z.leb_le; lia | apply Nat.leb_le; lia]).
    replace (String.length nm + String.length rest - String.length nm)%nat with (String.length rest) by lia.
    rewrite substring_app_l, substring_app_r. reflexivity.
  - intros [Hw Hx]. rewrite writeValue_str. cbn [parse_record Ascii.eqb Bool.eqb andb].
    rewrite read_varint_spec by exact Hw. rewrite read_varint_spec by exact Hx. reflexivity.
  - intros [Hw Hd]. rewrite writeDelta_str. cbn [parse_record Ascii.eqb Bool.eqb andb].
    rewrite read_varint_spec by exact Hw. rewrite read_varint_spec by exact Hd. reflexivity.
Qed.

Lemma record_string_cons r rest : exists c s, (record_string r ++ rest)%string = String c s.
Proof.
  destruct r; cbn [record_string];
    [rewrite writeName_str | rewrite writeValue_str | rewrite writeDelta_str]; eauto.
Qed.

Lemma parse_frame_concat rs :
  Forall record_ok rs -> forall fuel, (List.length rs <= fuel)%nat ->
  parse_frame fuel (concat_str (map record_string rs)) = Some rs.
Proof.
  induction 1 as [|r rs Hr _ IH]; intros fuel Hf; [destruct fuel; reflexivity|].
  destruct fuel as [|fuel]; cbn [List.length] in Hf; [lia|].
  cbn [map concat_str].
  destruct (record_string_cons r (concat_str (map record_string rs))) as (c & s & E).
  pose proof (parse_record_string r (concat_str (map record_string rs)) Hr) as Hp.
  rewrite E in Hp |- *. cbn [parse_frame]. rewrite Hp, IH by lia. reflexivity.
Qed.

Lemma concat_records_length rs :
  (List.length rs <= String.length (concat_str (map record_string rs)))%nat.
Proof.
  induction rs as [|r rs IH]; cbn [List.length map concat_str]; [lia|].
  destruct (record_string_cons r EmptyString) as (c & s & E).
  rewrite str_app_nil in E. rewrite str_length_app, E.
  change (String.length (String c s)) with (S (String.length s)). lia.
Qed.

Lemma decode_frame_concat rs :
  Forall record_ok rs -> decode_frame (concat_str (map record_string rs)) = Some rs.
Proof.
  intros H. unfold decode_frame. apply parse_frame_concat; [exact H | apply concat_records_length].
Qed.

Lemma concat_str_app l1 l2 : concat_str (l1 ++ l2) = (concat_str l1 ++ concat_str l2)%string.
Proof.
  induction l1 as [|s l1 IH]; cbn [app concat_str]; [reflexivity|].
  rewrite IH, str_app_assoc. reflexivity.
Qed.

Lemma delta_frame_records now n ms out ms' n' :
  delta_frame now n ms out ms' n' ->
  Forall (fun m => Z.of_nat (String.length (name m)) < 2 ^ 63 /\ int64_vals m /\
                   0 <= wireID m <= n) ms ->
  0 <= n -> n + Z.of_nat (List.length ms) < 2 ^ 63 ->
  n <= n' <= n + Z.of_nat (List.length ms) /\
  Forall (fun m => v m = lastLogVal m) ms' /\
  exists rs, out = concat_str (map record_string rs) /\
    Forall (fun r => record_ok r /\ forall w, rec_wid r = Some w -> 0 < w <= n') rs.
Proof.
  induction 1 as [n | n m ms r m' n1 out ms' n' Hmr _ IH]; intros Hms Hn Hb.
  - split; [lia|]. split; [constructor|]. exists []. split; [reflexivity | constructor].
  - inversion Hms as [|? ? (Hlen & [Hv1 Hv2] & Hw) Hms']; subst. cbn [List.length] in Hb |- *.
    revert IH. destruct Hmr as [Heq | wid n1 Hne _ Hnw | t wid n1 Hne _ _ Hnw]; intros IH.
    + destruct IH as (Hn' & Hsync & rs & -> & Hrs); [exact Hms' | lia | lia |].
      split; [lia|]. split; [constructor; [exact Heq | exact Hsync]|].
      exists rs. split; [reflexivity | exact Hrs].
    + assert (n <= n1 <= n + 1 /\ 0 < wid <= n1)
        by (destruct Hnw as [(? & ? & ? & ?) | (? & ? & ?)]; lia).
      destruct IH as (Hn' & Hsync & rs & -> & Hrs); [| lia | lia |].
      { eapply Forall_impl; [|exact Hms']. intros a (H1 & H2 & H3).
        split; [exact H1 | split; [exact H2 | lia]]. }
      split; [lia|]. split; [constructor; [reflexivity | exact Hsync]|].
      exists (RName (name m) :: RSet wid (Value m) :: rs). split.
      * cbn [map concat_str record_string]. rewrite <- str_app_assoc. reflexivity.
      * constructor; [|constructor; [|exact Hrs]]; cbn [record_ok rec_wid].
        -- split; [exact Hlen | discriminate].
        -- split; [split; [unfold is_int64; lia | exact Hv1] | intros w Hw'; injection Hw' as <-; lia].
    + assert (n <= n1 <= n + 1 /\ 0 < wid <= n1)
        by (destruct Hnw as [(? & ? & ? & ?) | (? & ? & ?)]; lia).
      destruct IH as (Hn' & Hsync & rs & -> & Hrs); [| lia | lia |].
      { eapply Forall_impl; [|exact Hms']. intros a (H1 & H2 & H3).
        split; [exact H1 | split; [exact H2 | lia]]. }
      split; [lia|]. split; [constructor; [reflexivity | exact Hsync]|].
      exists (RIncr wid (wrap64 (Value m - lastLogVal m)) :: rs). split.
      * cbn [map concat_str record_string]. reflexivity.
      * constructor; [|exact Hrs]. cbn [record_ok rec_wid].
        split; [split; [unfold is_int64; lia | apply wrap64_range] | intros w Hw'; injection Hw' as <-; lia].
Qed.

Lemma encode_loop_app now ms m enc nw :
  encode_loop now (ms ++ [m]) enc nw =
  let '(ms1, enc1, nw1) := encode_loop now ms enc nw in
  let '(m', enc2, nw2) := encode_metric now m enc1 nw1 in
  (ms1 ++ [m'], enc2, nw2).
Proof.
  revert enc nw. induction ms as [|a ms IH]; intros enc nw; cbn [app encode_loop].
  - destruct (encode_metric now m enc nw) as [[m' e] n]. reflexivity.
  - destruct (encode_metric now a enc nw) as [[a' e] n]. rewrite IH.
    destruct (encode_loop now ms e n) as [[ms1 e1] n1].
    destruct (encode_metric now m e1 n1) as [[m' e2] n2]. reflexivity.
Qed.

Lemma encode_metric_unchanged now m enc nw :
  v m = lastLogVal m -> encode_metric now m enc nw = (m, enc, nw).
Proof. intros H. unfold encode_metric, Value. rewrite H, Z.sub_diag. reflexivity. Qed.

Lemma encode_loop_synced now ms enc nw :
  Forall (fun m => v m = lastLogVal m) ms -> encode_loop now ms enc nw = (ms, enc, nw).
Proof.
  intros H. revert enc nw. induction H as [|m ms Hm _ IH]; intros enc nw; [reflexivity|].
  cbn [encode_loop]. rewrite encode_metric_unchanged by exact Hm. rewrite IH. reflexivity.
Qed.

Lemma Encode_run now st ms' out nw' :
  rate_limited now (lastDelta st) = false ->
  encode_loop now (metrics st) None (numWireID st) = (ms', Some out, nw') ->
  EncodeLogTailMetricsDelta now st = Ok out (mkState ms' nw' (Some now) (sortedDirty st) (sorted st)).
Proof.
  intros Hrl E. unfold EncodeLogTailMetricsDelta, bind, get. cbv beta.
  rewrite Hrl. cbv beta iota zeta. cbn [metrics numWireID lastDelta sortedDirty sorted].
  rewrite E. reflexivity.
Qed.

Lemma update_fresh nm f ms :
  ~ In nm (map name ms) -> map (fun m => if String.eqb (name m) nm then f m else m) ms = ms.
Proof.
  induction ms as [|m ms IH]; intros H; [reflexivity|]. cbn [map] in *.
  destruct (String.eqb_spec (name m) nm) as [E|E]; [exfalso; apply H; left; exact E|].
  rewrite IH by (intros H'; apply H; right; exact H'). reflexivity.
Qed.

Lemma Inv_wire_range st : Inv_wire st -> Forall (fun m => 0 <= wireID m <= numWireID st) (metrics st).
Proof.
  intros [Hn Hp]. apply Forall_forall. intros m Hm.
  destruct (Z.eq_dec (wireID m) 0) as [E|E]; [lia|].
  assert (H : In (wireID m) (wids (metrics st))).
  { unfold wids. apply filter_In. split; [apply in_map, Hm|].
    rewrite (proj2 (Z.eqb_neq _ _) E). reflexivity. }
  apply (Permutation_in _ Hp), zseq_In in H. lia.
Qed.

(** C4: from any reachable state (fewer than [2^62] metrics, names
    shorter than [2^63] bytes), register a counter under a fresh valid
    name, [Add(5)], encode when not rate-limited, [Add(3)], and encode
    again between 15 seconds and 4 hours later. The first frame decodes to
    the records of the other metrics, which never mention the counter's
    wireID, followed by a name record for the counter and an absolute value
    record [5] for its positive wireID, so that a reader starting from 0
    holds 5; the second frame decodes to one increment record of 3 for
    that wireID and nothing else, so the reader holds 8. *)
Theorem roundtrip_decodes (st : state) (c : string) (t1 t2 : Z) :
  reachable st ->
  Z.of_nat (List.length (metrics st)) < 2 ^ 62 ->
  Forall (fun m => Z.of_nat (String.length (name m)) < 2 ^ 63) (metrics st) ->
  documented_name c -> Z.of_nat (String.length c) < 2 ^ 63 ->
  ~ In c (map name (metrics st)) ->
  rate_limited t1 (lastDelta st) = false ->
  minMetricEncodeInterval <= t2 - t1 <= metricLogNameFrequency ->
  exists f1 f2 st' wid pre,
    roundtrip c t1 t2 st = Ok (f1, f2) st' /\ 0 < wid /\
    decode_frame f1 = Some (pre ++ [RName c; RSet wid 5]) /\
    Forall (fun r => rec_wid r <> Some wid) pre /\
    decode_frame f2 = Some [RIncr wid 3] /\
    apply_records wid (pre ++ [RName c; RSet wid 5]) 0 = 5 /\
    apply_records wid [RIncr wid 3] (apply_records wid (pre ++ [RName c; RSet wid 5]) 0) = 8.
Proof.
  intros Hr Hlen Hnames Hc Hclen Hfresh Hrl Ht.
  destruct (reachable_Inv_registry st Hr) as (_ & _ & Hint & _).
  assert (Hiw : Inv_wire st) by (apply reachable_Inv_wire; [exact Hr | lia]).
  pose proof (Inv_wire_range st Hiw) as Hrange.
  pose proof (Inv_wire_count st Hiw) as Hcount.
  pose proof (wids_zeros_length (metrics st)) as Hz.
  destruct Hiw as [Hn _].
  set (ms := metrics st) in *. set (nw := numWireID st) in *.
  (* NewCounter c *)
  assert (HNC : NewCounter c st =
                Ok (mkMetric 0 c TypeCounter 0 None 0)
                   (mkState (ms ++ [mkMetric 0 c TypeCounter 0 None 0]) nw (lastDelta st) true (sorted st))).
  { destruct (NewMetric_cases TypeCounter c st) as [(_ & _ & E) | ([H | H] & _)];
      [exact E | contradiction | contradiction]. }
  (* Add(5) *)
  set (st2 := mkState (ms ++ [mkMetric 5 c TypeCounter 0 None 0]) nw (lastDelta st) true (sorted st)).
  assert (HA5 : update_metric c (Add 5)
                  (mkState (ms ++ [mkMetric 0 c TypeCounter 0 None 0]) nw (lastDelta st) true (sorted st))
                = st2).
  { unfold update_metric, set_metrics, st2. cbn [metrics numWireID lastDelta sortedDirty sorted].
    rewrite map_app, update_fresh by exact Hfresh. cbn [map name]. rewrite String.eqb_refl.
    reflexivity. }
  (* first encode: the other metrics, then the counter *)
  assert (Hb : 0 <= nw /\ nw + Z.of_nat (List.length ms) < 2 ^ 63) by lia.
  destruct (encode_loop_frame t1 ms None nw (proj1 Hb) (proj2 Hb) Hint) as [o Ho].
  pose proof (encode_loop_shape t1 ms None nw) as Hsh.
  destruct (encode_loop t1 ms None nw) as [[ms1 enc1] nw1] eqn:Epre.
  destruct Ho as [Hbuf Hdf]. cbn [opt_buf String.append] in Hbuf.
  destruct (delta_frame_records t1 nw ms o ms1 nw1 Hdf) as (Hnw1 & Hsync & rs & Ho & Hrs).
  { apply Forall_forall. intros m Hm.
    pose proof (proj1 (Forall_forall _ _) Hnames m Hm).
    pose proof (proj1 (Forall_forall _ _) Hint m Hm).
    pose proof (proj1 (Forall_forall _ _) Hrange m Hm). auto. }
  { exact (proj1 Hb). }
  { exact (proj2 Hb). }
  set (w := nw1 + 1).
  set (f1 := writeValue w 5 (writeName c (opt_buf enc1))).
  assert (Hmc : encode_metric t1 (mkMetric 5 c TypeCounter 0 None 0) enc1 nw1 =
                (mkMetric 5 c TypeCounter w (Some t1) 5, Some f1, w)).
  { unfold encode_metric, Value, Name. cbn [v name typ wireID lastNamed lastLogVal]. cbv zeta.
    rewrite (wrap64_id (nw1 + 1)) by (unfold is_int64; lia). reflexivity. }
  set (st3 := mkState (ms1 ++ [mkMetric 5 c TypeCounter w (Some t1) 5]) w (Some t1) true (sorted st)).
  assert (HE1 : EncodeLogTailMetricsDelta t1 st2 = Ok f1 st3).
  { apply (Encode_run t1 st2); [exact Hrl|]. cbn [metrics numWireID st2].
    rewrite encode_loop_app, Epre, Hmc. reflexivity. }
  (* Add(3) *)
  set (st4 := mkState (ms1 ++ [mkMetric 8 c TypeCounter w (Some t1) 5]) w (Some t1) true (sorted st)).
  assert (HA3 : update_metric c (Add 3) st3 = st4).
  { unfold update_metric, set_metrics, st3, st4. cbn [metrics numWireID lastDelta sortedDirty sorted].
    rewrite map_app, update_fresh.
    - cbn [map name]. rewrite String.eqb_refl. reflexivity.
    - rewrite (Forall2_map_name _ _ Hsh). exact Hfresh. }
  (* second encode *)
  set (f2 := writeDelta w 3 EmptyString).
  assert (HE2 : EncodeLogTailMetricsDelta t2 st4 =
                Ok f2 (mkState (ms1 ++ [mkMetric 8 c TypeCounter w (Some t1) 8]) w (Some t2) true (sorted st))).
  { apply (Encode_run t2 st4).
    - cbn [st4 lastDelta rate_limited]. rewrite time_Sub_ltb
        by (unfold minMetricEncodeInterval, Second; lia).
      apply Z.ltb_ge. lia.
    - cbn [st4 metrics numWireID]. rewrite encode_loop_app, encode_loop_synced by exact Hsync.
      unfold encode_metric, Value, Name. cbn [v name typ wireID lastNamed lastLogVal]. cbv zeta.
      rewrite (proj2 (Z.eqb_neq w 0)) by lia.
      rewrite time_Sub_gtb by (unfold metricLogNameFrequency, Hour, Second; lia).
      rewrite Z.gtb_ltb.
      replace (metricLogNameFrequency <? t2 - t1) with false by (symmetry; apply Z.ltb_ge; lia).
      reflexivity. }
  exists f1, f2.
  eexists. exists w, rs.
  split.
  { unfold roundtrip, bind, AddTo, ret. rewrite HNC. rewrite HA5, HE1, HA3, HE2. reflexivity. }
  split; [lia|].
  assert (Hf1 : f1 = concat_str (map record_string (rs ++ [RName c; RSet w 5]))).
  { unfold f1. rewrite writeValue_app, writeName_app, Hbuf, Ho, map_app, concat_str_app.
    cbn [map concat_str record_string]. rewrite str_app_nil, str_app_assoc. reflexivity. }
  split.
  { rewrite Hf1. apply decode_frame_concat. apply Forall_app. split.
    - eapply Forall_impl; [|exact Hrs]. intros r [H _]. exact H.
    - repeat constructor; cbn [record_ok]; unfold is_int64; lia. }
  split.
  { eapply Forall_impl; [|exact Hrs]. intros r [_ H] E. specialize (H w E). lia. }
  split.
  { replace f2 with (concat_str (map record_string [RIncr w 3]))
      by (cbn [map concat_str record_string]; apply str_app_nil).
    apply decode_frame_concat. repeat constructor; unfold is_int64; lia. }
  unfold apply_records. rewrite fold_left_app. cbn [fold_left]. rewrite Z.eqb_refl.
  split; reflexivity.
Qed.

Lemma roundtrip_decodes_witness :
  exists f1 f2 st' wid pre,
    roundtrip "foo_total" (20 * Second) (40 * Second)
      (mkState [mkMetric 3 "b_total" TypeCounter 0 None 0;
                mkMetric 7 "a_gauge" TypeGauge 0 None 0] 0 None true []) = Ok (f1, f2) st' /\
    0 < wid /\
    decode_frame f1 = Some (pre ++ [RName "foo_total"; RSet wid 5]) /\
    Forall (fun r => rec_wid r <> Some wid) pre /\
    decode_frame f2 = Some [RIncr wid 3] /\
    apply_records wid (pre ++ [RName "foo_total"; RSet wid 5]) 0 = 5 /\
    apply_records wid [RIncr wid 3] (apply_records wid (pre ++ [RName "foo_total"; RSet wid 5]) 0) = 8.
Proof.
  apply (roundtrip_decodes
           (mkState [mkMetric 3 "b_total" TypeCounter 0 None 0;
                     mkMetric 7 "a_gauge" TypeGauge 0 None 0] 0 None true [])
           "foo_total" (20 * Second) (40 * Second)).
  - apply reachable_two.
  - reflexivity.
  - repeat constructor.
  - apply valid_name_documented. split; [discriminate | vm_compute; reflexivity].
  - reflexivity.
  - cbn. intros [H | [H | []]]; discriminate.
  - reflexivity.
  - unfold minMetricEncodeInterval, metricLogNameFrequency, Hour, Second. lia.
Defined.

(** * Further properties of the package *)

Lemma wrap64_add_l x y : wrap64 (wrap64 x + y) = wrap64 (x + y).
Proof.
  unfold wrap64.
  replace ((x + 2 ^ 63) mod 2 ^ 64 - 2 ^ 63 + y + 2 ^ 63) with ((x + 2 ^ 63) mod 2 ^ 64 + y) by ring.
  rewrite Zplus_mod_idemp_l. f_equal. f_equal. ring.
Qed.

Lemma update_metric_compose nm f g st :
  (forall m, name (f m) = name m) ->
  update_metric nm g (update_metric nm f st) = update_metric nm (fun m => g (f m)) st.
Proof.
  intros Hf. unfold update_metric, set_metrics. cbn. rewrite map_map. f_equal.
  apply map_ext. intros m. destruct (String.eqb (name m) nm) eqn:E; [rewrite Hf, E | rewrite E]; reflexivity.
Qed.

(** X1: two [Add] calls on a metric amount to one [Add] of the sum (the
    wrap-around of int64 does not get in the way), and a [Set] after an
    [Add] leaves the same state as the [Set] alone. *)
Theorem Add_compose (nm : string) (a b x : Z) (st : state) :
  update_metric nm (Add b) (update_metric nm (Add a) st) = update_metric nm (Add (a + b)) st /\
  update_metric nm (Set_ x) (update_metric nm (Add a) st) = update_metric nm (Set_ x) st.
Proof.
  split; rewrite update_metric_compose by reflexivity;
    unfold update_metric; f_equal; apply map_ext; intros m;
    destruct (String.eqb (name m) nm); try reflexivity.
  unfold Add. cbn [v name typ wireID lastNamed lastLogVal].
  rewrite wrap64_add_l, Z.add_assoc. reflexivity.
Qed.

(** X2: when every value is an int64, [Add(n)] followed by [Add(-n)] on a
    metric gives back the state as it was. *)
Theorem Add_cancel (nm : string) (n : Z) (st : state) :
  Forall (fun m => is_int64 (v m)) (metrics st) ->
  update_metric nm (Add (- n)) (update_metric nm (Add n) st) = st.
Proof.
  intros Hv. rewrite update_metric_compose by reflexivity.
  destruct st as [ms nw ld sd srt]. unfold update_metric, set_metrics.
  cbn [metrics numWireID lastDelta sortedDirty sorted] in *. f_equal.
  rewrite <- (map_id ms) at 2. apply map_ext_in. intros m Hm.
  destruct (String.eqb (name m) nm); [|reflexivity].
  rewrite Forall_forall in Hv. specialize (Hv m Hm).
  unfold Add. cbn [v name typ wireID lastNamed lastLogVal].
  rewrite wrap64_add_l, <- Z.add_assoc, Z.add_opp_diag_r, Z.add_0_r, wrap64_id by exact Hv.
  destruct m; reflexivity.
Qed.

Lemma Add_cancel_witness :
  Forall (fun m => is_int64 (v m)) (metrics wire_demo_before) /\
  update_metric "a_gauge"%string (Add (- 5)) (update_metric "a_gauge"%string (Add 5) wire_demo_before)
    = wire_demo_before.
Proof.
  assert (H : Forall (fun m => is_int64 (v m)) (metrics wire_demo_before))
    by (repeat constructor; cbn; lia).
  split; [exact H | apply (Add_cancel "a_gauge"%string 5 wire_demo_before H)].
Defined.

Lemma Sorted_perm_eq {A} (R : A -> A -> Prop) :
  (forall x y z, R x y -> R y z -> R x z) -> (forall x, ~ R x x) ->
  forall l1 l2, Sorted R l1 -> Sorted R l2 -> Permutation l1 l2 -> l1 = l2.
Proof.
  intros Htr Hirr l1. induction l1 as [|a l1 IH]; intros l2 H1 H2 Hp.
  - symmetry. apply Permutation_nil, Hp.
  - destruct l2 as [|b l2]; [apply Permutation_sym, Permutation_nil in Hp; discriminate|].
    pose proof (Sorted_StronglySorted Htr H1) as S1. pose proof (Sorted_StronglySorted Htr H2) as S2.
    inversion S1 as [|? ? _ F1]; inversion S2 as [|? ? _ F2]; subst.
    assert (a = b).
    { assert (Ha : In a (b :: l2)) by (apply (Permutation_in _ Hp); left; reflexivity).
      assert (Hb : In b (a :: l1)) by (apply (Permutation_in _ (Permutation_sym Hp)); left; reflexivity).
      destruct Ha as [Ha|Ha]; [auto|]. destruct Hb as [Hb|Hb]; [auto|].
      rewrite Forall_forall in F1, F2. exfalso. apply (Hirr a), (Htr a b a); auto. }
    subst b. f_equal. apply IH.
    + apply Sorted_inv in H1. apply H1.
    + apply Sorted_inv in H2. apply H2.
    + apply Permutation_cons_inv in Hp. exact Hp.
Qed.

Lemma Sorted_map_inv {A B} (f : A -> B) (R : B -> B -> Prop) l :
  Sorted R (map f l) -> Sorted (fun a b => R (f a) (f b)) l.
Proof.
  induction l as [|a l IH]; intros H; [constructor|].
  apply Sorted_inv in H as [H1 H2]. constructor; [auto|].
  destruct l as [|b l]; constructor. inversion H2; assumption.
Qed.

Lemma Metrics_result (st st' : state) (l : list string) :
  reachable st -> Metrics st = Ok l st' ->
  Sorted str_lt l /\ NoDup l /\ Permutation l (map name (metrics st)) /\
  metrics st' = metrics st.
Proof.
  intros Hr Hm. destruct (reachable_Inv_registry st Hr) as (Hnd & _ & _ & Hcache).
  apply Metrics_cases in Hm as [(_ & -> & ->) | (Hd & -> & ->)].
  - split; [apply sort_names_sorted, Hnd|]. split.
    + apply (Permutation_NoDup (Permutation_sym (sort_names_perm _))), Hnd.
    + split; [apply sort_names_perm | reflexivity].
  - destruct (Hcache Hd) as [H1 H2]. split; [exact H1|]. split; [|split; [exact H2 | reflexivity]].
    apply (Permutation_NoDup (Permutation_sym H2)), Hnd.
Qed.

Lemma Write_result (st st' : state) (out : string) :
  reachable st -> WritePrometheusExpositionFormat st = Ok out st' ->
  exists ms, Permutation ms (metrics st) /\ Sorted str_lt (map name ms) /\
    out = concat_str (map exposition_lines ms).
Proof.
  intros Hr Hw. apply Write_cases in Hw as (l & Hm & ->).
  destruct (Metrics_result st st' l Hr Hm) as (Hs & Hnd & Hp & Hms).
  destruct (write_loop (metrics st') l EmptyString) as (ml & H1 & H2 & H3).
  { rewrite Hms. intros x Hx. apply (Permutation_in _ Hp), Hx. }
  exists ml. rewrite Hms in H2. split; [|split; [rewrite H1; exact Hs | rewrite H3; apply str_app_empty_l]].
  apply NoDup_Permutation_bis.
  - rewrite <- H1 in Hnd. clear -Hnd. induction ml; [constructor|].
    inversion Hnd; subst. constructor; auto. intros Hin; apply H1, in_map, Hin.
  - rewrite <- (length_map name ml), H1, (Permutation_length Hp), length_map. lia.
  - exact H2.
Qed.

Lemma str_lt_name_trans (a b c : Metric) :
  str_lt (name a) (name b) -> str_lt (name b) (name c) -> str_lt (name a) (name c).
Proof. apply str_lt_trans. Qed.

(** X3: the list [Metrics] returns depends only on which names are
    registered: two reachable states whose registries hold the same names,
    in whatever map order and with the cache clean or dirty, give the same
    list. *)
Theorem Metrics_order_independent (st1 st2 st1' st2' : state) (l1 l2 : list string) :
  reachable st1 -> reachable st2 ->
  Permutation (map name (metrics st1)) (map name (metrics st2)) ->
  Metrics st1 = Ok l1 st1' -> Metrics st2 = Ok l2 st2' -> l1 = l2.
Proof.
  intros Hr1 Hr2 Hp H1 H2.
  destruct (Metrics_result st1 st1' l1 Hr1 H1) as (S1 & _ & P1 & _).
  destruct (Metrics_result st2 st2' l2 Hr2 H2) as (S2 & _ & P2 & _).
  apply (Sorted_perm_eq str_lt str_lt_trans str_lt_irrefl); [exact S1 | exact S2 |].
  rewrite P1, Hp. symmetry. exact P2.
Qed.

(** X4: the text [WritePrometheusExpositionFormat] produces does not
    depend on the map iteration order: two reachable states whose
    registries hold the same metrics in any order produce the same text. *)
Theorem Write_order_independent (st1 st2 st1' st2' : state) (out1 out2 : string) :
  reachable st1 -> reachable st2 -> Permutation (metrics st1) (metrics st2) ->
  WritePrometheusExpositionFormat st1 = Ok out1 st1' ->
  WritePrometheusExpositionFormat st2 = Ok out2 st2' -> out1 = out2.
Proof.
  intros Hr1 Hr2 Hp H1 H2.
  destruct (Write_result st1 st1' out1 Hr1 H1) as (ms1 & P1 & S1 & ->).
  destruct (Write_result st2 st2' out2 Hr2 H2) as (ms2 & P2 & S2 & ->).
  f_equal. f_equal.
  apply (Sorted_perm_eq (fun a b => str_lt (name a) (name b)) str_lt_name_trans
                        (fun a => str_lt_irrefl (name a))).
  - apply Sorted_map_inv, S1.
  - apply Sorted_map_inv, S2.
  - rewrite P1, Hp. symmetry. exact P2.
Qed.

Lemma reachable_two_reordered : reachable two_reordered.
Proof.
  eapply reach_step; [apply reachable_two|].
  exact (step_reorder (mkState [mkMetric 3 "b_total" TypeCounter 0 None 0;
                                mkMetric 7 "a_gauge" TypeGauge 0 None 0] 0 None true [])
                      [mkMetric 7 "a_gauge" TypeGauge 0 None 0;
                       mkMetric 3 "b_total" TypeCounter 0 None 0] (perm_swap _ _ _)).
Qed.

Lemma Metrics_order_independent_witness :
  ["a_gauge"; "b_total"]%string = ["a_gauge"; "b_total"]%string.
Proof.
  apply (Metrics_order_independent
           (mkState [mkMetric 3 "b_total" TypeCounter 0 None 0;
                     mkMetric 7 "a_gauge" TypeGauge 0 None 0] 0 None true [])
           two_reordered
           (mkState [mkMetric 3 "b_total" TypeCounter 0 None 0;
                     mkMetric 7 "a_gauge" TypeGauge 0 None 0] 0 None false ["a_gauge"; "b_total"]%string)
           (mkState (metrics two_reordered) 0 None false ["a_gauge"; "b_total"]%string));
    [apply reachable_two | apply reachable_two_reordered | apply perm_swap
    | vm_compute; reflexivity | vm_compute; reflexivity].
Defined.

Lemma Write_order_independent_witness :
  concat_str (map exposition_lines [mkMetric 7 "a_gauge" TypeGauge 0 None 0;
                                     mkMetric 3 "b_total" TypeCounter 0 None 0]) =
  concat_str (map exposition_lines [mkMetric 7 "a_gauge" TypeGauge 0 None 0;
                                     mkMetric 3 "b_total" TypeCounter 0 None 0]).
Proof.
  apply (Write_order_independent
           (mkState [mkMetric 3 "b_total" TypeCounter 0 None 0;
                     mkMetric 7 "a_gauge" TypeGauge 0 None 0] 0 None true [])
           two_reordered
           (mkState [mkMetric 3 "b_total" TypeCounter 0 None 0;
                     mkMetric 7 "a_gauge" TypeGauge 0 None 0] 0 None false ["a_gauge"; "b_total"]%string)
           (mkState (metrics two_reordered) 0 None false ["a_gauge"; "b_total"]%string));
    [apply reachable_two | apply reachable_two_reordered | apply perm_swap
    | vm_compute; reflexivity | vm_compute; reflexivity].
Defined.

Lemma Encode_not_limited now st out st' :
  rate_limited now (lastDelta st) = false ->
  EncodeLogTailMetricsDelta now st = Ok out st' ->
  exists enc, encode_loop now (metrics st) None (numWireID st) = (metrics st', enc, numWireID st') /\
    out = opt_buf enc /\
    st' = mkState (metrics st') (numWireID st') (Some now) (sortedDirty st) (sorted st).
Proof.
  intros Hrl He. unfold EncodeLogTailMetricsDelta, bind, get in He. cbv beta in He.
  rewrite Hrl in He. cbv beta iota zeta in He.
  cbn [metrics numWireID lastDelta sortedDirty sorted] in He.
  destruct (encode_loop now (metrics st) None (numWireID st)) as [[ms enc] nw] eqn:E.
  unfold put, ret in He. exists enc.
  destruct enc; injection He as <- <-; cbn; auto.
Qed.

Lemma encode_metric_syncs now m enc nw :
  int64_vals m -> let '(m', _, _) := encode_metric now m enc nw in v m' = lastLogVal m'.
Proof.
  intros [H1 H2]. unfold encode_metric, Value.
  destruct (wrap64 (v m - lastLogVal m) =? 0) eqn:E.
  - rewrite wrap64_sub_0 in E by assumption. apply Z.eqb_eq in E. exact E.
  - destruct (if wireID m =? 0 then let nw0 := wrap64 (nw + 1) in (nw0, nw0) else (nw, wireID m)).
    destruct (match lastNamed m with Some t => _ | None => true end); reflexivity.
Qed.

Lemma encode_loop_syncs now ms : forall enc nw,
  Forall int64_vals ms ->
  let '(ms', _, _) := encode_loop now ms enc nw in Forall (fun m => v m = lastLogVal m) ms'.
Proof.
  induction ms as [|m ms IH]; intros enc nw H; cbn [encode_loop]; [constructor|].
  inversion H as [|? ? Hm Hms]; subst.
  pose proof (encode_metric_syncs now m enc nw Hm) as Hs.
  destruct (encode_metric now m enc nw) as [[m' enc1] n1].
  specialize (IH enc1 n1 Hms). destruct (encode_loop now ms enc1 n1) as [[ms' enc'] n'].
  constructor; assumption.
Qed.

(** X5: right after an encode call that was not rate-limited, a second
    call with no [Add] or [Set] in between returns the empty string and
    changes no metric and no wireID count, whenever it is made. *)
Theorem Encode_second_call_quiet (now now' : Z) (st st' st'' : state) (out out' : string) :
  reachable st -> rate_limited now (lastDelta st) = false ->
  EncodeLogTailMetricsDelta now st = Ok out st' ->
  EncodeLogTailMetricsDelta now' st' = Ok out' st'' ->
  out' = EmptyString /\ metrics st'' = metrics st' /\ numWireID st'' = numWireID st'.
Proof.
  intros Hr Hrl H1 H2. destruct (reachable_Inv_registry st Hr) as (_ & _ & Hv & _).
  destruct (Encode_not_limited now st out st' Hrl H1) as (enc & E & _ & _).
  pose proof (encode_loop_syncs now (metrics st) None (numWireID st) Hv) as Hs. rewrite E in Hs.
  apply EncodeLogTailMetricsDelta_cases in H2 as [(-> & ->) | (_ & enc' & E' & -> & _)];
    [auto|].
  rewrite encode_loop_synced in E' by exact Hs. injection E' as <- <- <-. auto.
Qed.

Lemma Encode_second_call_quiet_witness :
  EmptyString = EmptyString /\
  metrics (mkState (metrics two_encoded) 2 (Some (40 * Second)) true []) = metrics two_encoded /\
  numWireID (mkState (metrics two_encoded) 2 (Some (40 * Second)) true []) = numWireID two_encoded.
Proof.
  apply (Encode_second_call_quiet (20 * Second) (40 * Second)
           (mkState [mkMetric 3 "b_total" TypeCounter 0 None 0;
                     mkMetric 7 "a_gauge" TypeGauge 0 None 0] 0 None true [])
           two_encoded (mkState (metrics two_encoded) 2 (Some (40 * Second)) true [])
           "N0eb_totalS0206N0ea_gaugeS040e"%string EmptyString);
    [apply reachable_two | reflexivity | vm_compute; reflexivity | vm_compute; reflexivity].
Defined.

Lemma str_app_neq_empty_l (a b : string) : a <> EmptyString -> (a ++ b)%string <> EmptyString.
Proof. destruct a; [contradiction | discriminate]. Qed.

Lemma str_app_neq_empty_r (a b : string) : b <> EmptyString -> (a ++ b)%string <> EmptyString.
Proof. destruct a; cbn; [auto | discriminate]. Qed.

Lemma writeValue_neq_empty w x buf : writeValue w x buf <> EmptyString.
Proof.
  unfold writeValue, writeHexVarint. apply str_app_neq_empty_l, str_app_neq_empty_l.
  apply str_app_neq_empty_r. discriminate.
Qed.

Lemma writeDelta_neq_empty w x buf : writeDelta w x buf <> EmptyString.
Proof.
  unfold writeDelta, writeHexVarint. apply str_app_neq_empty_l, str_app_neq_empty_l.
  apply str_app_neq_empty_r. discriminate.
Qed.

Lemma encode_metric_output now m enc nw :
  int64_vals m ->
  let '(_, enc1, _) := encode_metric now m enc nw in
  (Value m = lastLogVal m /\ enc1 = enc) \/
  (Value m <> lastLogVal m /\ exists b, enc1 = Some b /\ b <> EmptyString).
Proof.
  intros [H1 H2]. unfold encode_metric, Value.
  destruct (wrap64 (v m - lastLogVal m) =? 0) eqn:E.
  - rewrite wrap64_sub_0 in E by assumption. apply Z.eqb_eq in E. left. auto.
  - rewrite wrap64_sub_0 in E by assumption. apply Z.eqb_neq in E.
    destruct (if wireID m =? 0 then let nw0 := wrap64 (nw + 1) in (nw0, nw0) else (nw, wireID m)).
    destruct (match lastNamed m with Some t => _ | None => true end); right; (split; [exact E|]);
      eexists; (split; [reflexivity|]); [apply writeValue_neq_empty | apply writeDelta_neq_empty].
Qed.

Lemma encode_loop_output now ms : forall enc nw,
  Forall int64_vals ms ->
  let '(_, enc', _) := encode_loop now ms enc nw in
  (Forall (fun m => Value m = lastLogVal m) ms /\ enc' = enc) \/
  (~ Forall (fun m => Value m = lastLogVal m) ms /\ exists b, enc' = Some b /\ b <> EmptyString).
Proof.
  induction ms as [|m ms IH]; intros enc nw H; cbn [encode_loop]; [left; auto|].
  inversion H as [|? ? Hm Hms]; subst.
  pose proof (encode_metric_output now m enc nw Hm) as Ho.
  destruct (encode_metric now m enc nw) as [[m' enc1] n1].
  specialize (IH enc1 n1 Hms). destruct (encode_loop now ms enc1 n1) as [[ms' enc'] n'].
  destruct Ho as [[Hq ->] | [Hq Hb]].
  - destruct IH as [[Hf ->] | [Hf Hb]]; [left; auto | right; split; [|exact Hb]].
    intros Hc. inversion Hc; auto.
  - right. split; [intros Hc; inversion Hc; auto|].
    destruct IH as [[_ ->] | [_ Hb']]; assumption.
Qed.

(** X6: when an encode call is not rate-limited, it returns the empty
    string exactly when every registered metric's value equals the value
    last sent for it. *)
Theorem Encode_empty_iff_unchanged (now : Z) (st st' : state) (out : string) :
  reachable st -> rate_limited now (lastDelta st) = false ->
  EncodeLogTailMetricsDelta now st = Ok out st' ->
  (out = EmptyString <-> Forall (fun m => Value m = lastLogVal m) (metrics st)).
Proof.
  intros Hr Hrl He. destruct (reachable_Inv_registry st Hr) as (_ & _ & Hv & _).
  destruct (Encode_not_limited now st out st' Hrl He) as (enc & E & -> & _).
  pose proof (encode_loop_output now (metrics st) None (numWireID st) Hv) as Ho. rewrite E in Ho.
  destruct Ho as [[Hf ->] | [Hf (b & -> & Hb)]]; cbn [opt_buf]; split; auto; contradiction.
Qed.

Lemma Encode_empty_iff_unchanged_witness :
  ("N0eb_totalS0206N0ea_gaugeS040e"%string = EmptyString <->
   Forall (fun m => Value m = lastLogVal m)
     [mkMetric 3 "b_total" TypeCounter 0 None 0; mkMetric 7 "a_gauge" TypeGauge 0 None 0]).
Proof.
  apply (Encode_empty_iff_unchanged (20 * Second)
           (mkState [mkMetric 3 "b_total" TypeCounter 0 None 0;
                     mkMetric 7 "a_gauge" TypeGauge 0 None 0] 0 None true [])
           two_encoded);
    [apply reachable_two | reflexivity | vm_compute; reflexivity].
Defined.

(** X7: an encode call never changes the name, type or value of any
    registered metric, nor the registry's order or its sorted cache; it
    only updates the encoder's bookkeeping. *)
Theorem Encode_keeps_values (now : Z) (st st' : state) (out : string) :
  EncodeLogTailMetricsDelta now st = Ok out st' ->
  map (fun m => (name m, typ m, v m)) (metrics st') = map (fun m => (name m, typ m, v m)) (metrics st) /\
  sortedDirty st' = sortedDirty st /\ sorted st' = sorted st.
Proof.
  intros He. apply EncodeLogTailMetricsDelta_cases in He as [(-> & _) | (_ & enc & E & _ & Hst)];
    [auto|].
  split; [|rewrite Hst; split; reflexivity].
  pose proof (encode_loop_shape now (metrics st) None (numWireID st)) as Hsh. rewrite E in Hsh.
  clear -Hsh. induction Hsh as [|m m' ms ms' (H1 & H2 & H3 & _) _ IH]; cbn; [reflexivity|].
  rewrite H1, H2, H3, IH. reflexivity.
Qed.

Lemma str_app_inv_l (a b c : string) : (a ++ b = a ++ c)%string -> b = c.
Proof. induction a as [|ch a IH]; cbn; [auto | intros H; injection H; auto]. Qed.

(** X8: [writeHexVarint] loses no information on int64 values: appending
    two different int64 values to the same buffer gives different
    buffers. *)
Theorem writeHexVarint_injective (x y : Z) (buf : string) :
  is_int64 x -> is_int64 y -> writeHexVarint x buf = writeHexVarint y buf -> x = y.
Proof.
  intros Hx Hy H. unfold writeHexVarint in H. apply str_app_inv_l in H.
  pose proof (read_varint_spec x EmptyString Hx) as Rx.
  pose proof (read_varint_spec y EmptyString Hy) as Ry.
  rewrite H in Rx. rewrite Rx in Ry. congruence.
Qed.

Lemma writeHexVarint_injective_witness : 300 = 300.
Proof.
  apply (writeHexVarint_injective 300 300 "S"%string);
    [unfold is_int64; lia | unfold is_int64; lia | reflexivity].
Defined.

Lemma hex_spec_length bs : String.length (hex_spec bs) = (2 * List.length bs)%nat.
Proof. induction bs as [|b bs IH]; cbn [hex_spec String.length List.length]; lia. Qed.

(** X9: [writeHexVarint] appends an even number of characters to the
    buffer, two per varint byte, with between 1 and [MaxVarintLen64]
    bytes for any int64. *)
Theorem writeHexVarint_length (x : Z) (buf : string) :
  is_int64 x ->
  exists n, (1 <= n <= MaxVarintLen64)%nat /\
    String.length (writeHexVarint x buf) = (String.length buf + 2 * n)%nat.
Proof.
  intros Hx. destruct (hex_varint_PutVarint x Hx) as (bs & Hb & _ & He).
  exists (List.length bs). unfold writeHexVarint. rewrite He, str_length_app, hex_spec_length.
  split; [|reflexivity]. pose proof (zigzag_range x Hx) as Hz. split.
  - inversion Hb; cbn; lia.
  - apply (base128_length _ _ Hb 9). cbn. lia.
Qed.

Lemma writeHexVarint_length_witness :
  exists n, (1 <= n <= MaxVarintLen64)%nat /\
    String.length (writeHexVarint (- 2 ^ 63) EmptyString) = (0 + 2 * n)%nat.
Proof.
  apply (writeHexVarint_length (- 2 ^ 63) EmptyString). unfold is_int64. lia.
Defined.

(** X10: the records the writers produce form a uniquely decodable code:
    two sequences of records (name lengths and wireIDs and values within
    int64) whose texts, written one after the other, are equal, are the
    same sequence. *)
Theorem records_text_injective (rs1 rs2 : list frame_record) :
  Forall record_ok rs1 -> Forall record_ok rs2 ->
  concat_str (map record_string rs1) = concat_str (map record_string rs2) -> rs1 = rs2.
Proof.
  intros H1 H2 E. pose proof (decode_frame_concat rs1 H1) as D1.
  rewrite E, (decode_frame_concat rs2 H2) in D1. congruence.
Qed.

Lemma records_text_injective_witness :
  [RName "a"; RSet 1 5; RIncr 1 (-3)]%string = [RName "a"; RSet 1 5; RIncr 1 (-3)]%string.
Proof.
  apply records_text_injective;
    [repeat constructor; cbn; lia | repeat constructor; cbn; lia | reflexivity].
Defined.

Lemma encode_metric_named now m enc n :
  named_ok m -> 0 <= n -> (wireID m = 0 -> n + 1 < 2 ^ 63) ->
  let '(m', _, _) := encode_metric now m enc n in named_ok m'.
Proof.
  intros [Hn Hl] H0 Hb. unfold encode_metric. cbv zeta.
  destruct (wrap64 (Value m - lastLogVal m) =? 0); [split; assumption|].
  destruct (Z.eqb_spec (wireID m) 0) as [Hw|Hw].
  - rewrite (proj1 Hn Hw), wrap64_id by (specialize (Hb Hw); unfold is_int64; lia).
    unfold named_ok; cbn. split; [split; [lia | discriminate] | lia].
  - assert (Hs : lastNamed m <> None) by (intros E; apply Hw, Hn, E).
    destruct (match lastNamed m with Some t => _ | None => true end);
      unfold named_ok; cbn; (split; [split; intros E; [contradiction | try discriminate] | intros E; contradiction]).
    contradiction.
Qed.

Lemma encode_loop_named now ms : forall enc n,
  0 <= n -> n + Z.of_nat (zeros ms) < 2 ^ 63 -> Forall named_ok ms ->
  let '(ms', _, _) := encode_loop now ms enc n in Forall named_ok ms'.
Proof.
  induction ms as [|m ms IH]; intros enc n Hn Hb Hok; cbn [encode_loop]; [constructor|].
  rewrite zeros_cons in Hb. inversion Hok as [|? ? Hm Hms]; subst.
  assert (Hb1 : wireID m = 0 -> n + 1 < 2 ^ 63)
    by (intros Hw0; rewrite Hw0 in Hb; cbn in Hb; lia).
  pose proof (encode_metric_wire now m enc n Hn Hb1) as Hw.
  pose proof (encode_metric_named now m enc n Hm Hn Hb1) as Hm'.
  destruct (encode_metric now m enc n) as [[m' enc1] n1].
  destruct Hw as (_ & [(Hk & _ & ->) | (Hw0 & _ & _ & ->)]).
  - specialize (IH enc1 n Hn ltac:(destruct (wireID m =? 0); lia) Hms).
    destruct (encode_loop now ms enc1 n) as [[ms' enc'] n']. constructor; assumption.
  - rewrite Hw0 in Hb. cbn [Z.eqb] in Hb.
    specialize (IH enc1 (n + 1) ltac:(lia) ltac:(lia) Hms).
    destruct (encode_loop now ms enc1 (n + 1)) as [[ms' enc'] n']. constructor; assumption.
Qed.

Lemma update_named nm f st :
  (forall m, wireID (f m) = wireID m /\ lastNamed (f m) = lastNamed m /\ lastLogVal (f m) = lastLogVal m) ->
  Forall named_ok (metrics st) -> Forall named_ok (metrics (update_metric nm f st)).
Proof.
  intros Hf H. unfold update_metric, set_metrics. cbn. apply Forall_map.
  eapply Forall_impl; [|exact H]. intros m Hm.
  destruct (String.eqb (name m) nm); [|exact Hm].
  destruct (Hf m) as (H1 & H2 & H3). unfold named_ok. rewrite H1, H2, H3. exact Hm.
Qed.

Lemma Forall_perm {A} (P : A -> Prop) l l' : Permutation l l' -> Forall P l -> Forall P l'.
Proof.
  intros Hp H. rewrite Forall_forall in *. intros x Hx.
  apply H, (Permutation_in _ (Permutation_sym Hp)), Hx.
Qed.

Lemma reachable_named_ok (st : state) :
  reachable st -> Z.of_nat (List.length (metrics st)) < 2 ^ 63 -> Forall named_ok (metrics st).
Proof.
  intros Hr. induction Hr as [|st st' Hr IH Hs]; intros Hb; [constructor|].
  pose proof (step_length st st' Hs) as Hlen.
  specialize (IH ltac:(lia)).
  destruct Hs as [st st' nm t x Hx Hpub | st nm n Hn' | st nm x Hx | st st' l Hm
                 | st st' out Hw | st st' now out He | st ms Hperm].
  - apply publish_step_cases in Hpub as (_ & _ & ->). cbn [metrics].
    apply Forall_app. split; [exact IH|]. constructor; [|constructor].
    unfold named_ok; cbn. split; [split; reflexivity | reflexivity].
  - apply update_named; [intros; repeat split | exact IH].
  - apply update_named; [intros; repeat split | exact IH].
  - apply Metrics_cases in Hm as [(_ & _ & ->) | (_ & _ & ->)]; exact IH.
  - apply Write_cases in Hw as (l & Hm & _).
    apply Metrics_cases in Hm as [(_ & _ & ->) | (_ & _ & ->)]; exact IH.
  - apply EncodeLogTailMetricsDelta_cases in He as [(-> & _) | (_ & enc & E & _ & _)]; [exact IH|].
    pose proof (reachable_Inv_wire st Hr ltac:(lia)) as Hi.
    pose proof (Inv_wire_count st Hi) as Hc. pose proof (wids_zeros_length (metrics st)) as Hz.
    destruct Hi as [Hn _].
    pose proof (encode_loop_named now (metrics st) None (numWireID st) Hn ltac:(lia) IH) as Ho.
    rewrite E in Ho. exact Ho.
  - apply (Forall_perm _ _ _ Hperm IH).
Qed.

(** X11: in every reachable state (fewer than [2^63] metrics), a metric
    has a wireID exactly when it has been named in some frame, and a
    metric without a wireID has never had a value sent. So an increment
    record, which is only written for a metric named before, always
    carries a wireID that an earlier frame announced. *)
Theorem named_iff_wireID (st : state) :
  reachable st -> Z.of_nat (List.length (metrics st)) < 2 ^ 63 ->
  Forall (fun m => (wireID m = 0 <-> lastNamed m = None) /\ (wireID m = 0 -> lastLogVal m = 0))
    (metrics st).
Proof. intros Hr Hb. apply (reachable_named_ok st Hr Hb). Qed.

Lemma named_iff_wireID_witness :
  Forall (fun m => (wireID m = 0 <-> lastNamed m = None) /\ (wireID m = 0 -> lastLogVal m = 0))
    (metrics wire_demo_after).
Proof.
  apply named_iff_wireID.
  - eapply reach_step; [apply reachable_wire_demo|].
    apply (step_encode _ _ (20 * Second) "N0ea_gaugeS020e"%string). vm_compute. reflexivity.
  - cbn. lia.
Defined.

(** X12: in every reachable state (fewer than [2^63] metrics), the
    wireIDs in use are exactly [1], [2], ..., [numWireID], each held by
    one metric: no wireID is skipped or given twice. *)
Theorem wireIDs_dense (st : state) :
  reachable st -> Z.of_nat (List.length (metrics st)) < 2 ^ 63 ->
  0 <= numWireID st /\ Permutation (wids (metrics st)) (zseq 1 (Z.to_nat (numWireID st))).
Proof. intros Hr Hb. apply (reachable_Inv_wire st Hr Hb). Qed.

Lemma wireIDs_dense_witness :
  0 <= numWireID wire_demo_after /\
  Permutation (wids (metrics wire_demo_after)) (zseq 1 (Z.to_nat (numWireID wire_demo_after))).
Proof.
  apply wireIDs_dense.
  - eapply reach_step; [apply reachable_wire_demo|].
    apply (step_encode _ _ (20 * Second) "N0ea_gaugeS020e"%string). vm_compute. reflexivity.
  - cbn. lia.
Defined.

Lemma wrap64_add_r x y : wrap64 (x + wrap64 y) = wrap64 (x + y).
Proof. rewrite Z.add_comm, wrap64_add_l, Z.add_comm. reflexivity. Qed.

Lemma encode_metric_reader now m enc n rd :
  int64_vals m -> Z.of_nat (String.length (name m)) < 2 ^ 63 -> named_ok m ->
  0 <= wireID m <= n -> n < 2 ^ 63 -> (wireID m = 0 -> n + 1 < 2 ^ 63) ->
  pending rd = None -> agree rd m ->
  let '(m', enc1, _) := encode_metric now m enc n in
  exists rs, opt_buf enc1 = (opt_buf enc ++ concat_str (map record_string rs))%string /\
    Forall record_ok rs /\
    pending (fold_left read_record rs rd) = None /\ agree (fold_left read_record rs rd) m' /\
    (forall k, k <> wireID m' -> rval (fold_left read_record rs rd) k = rval rd k /\
                                 rname (fold_left read_record rs rd) k = rname rd k).
Proof.
  intros [Hv Hl] Hlen [Hn Hz] Hw Hnb Hb Hp Ha. unfold encode_metric. cbv zeta.
  change (match enc with Some b => b | None => EmptyString end) with (opt_buf enc).
  destruct (Z.eqb_spec (wrap64 (Value m - lastLogVal m)) 0) as [Hd|Hd].
  { exists []. cbn [map concat_str fold_left].
    split; [symmetry; apply str_app_nil|]. split; [constructor|].
    split; [exact Hp|]. split; [exact Ha|]. intros; split; reflexivity. }
  assert (Hrename : forall wid, 0 < wid < 2 ^ 63 ->
    exists rs,
      opt_buf (Some (writeValue wid (Value m) (writeName (Name m) (opt_buf enc)))) =
        (opt_buf enc ++ concat_str (map record_string rs))%string /\
      Forall record_ok rs /\
      pending (fold_left read_record rs rd) = None /\
      agree (fold_left read_record rs rd) (mkMetric (v m) (name m) (typ m) wid (Some now) (Value m)) /\
      (forall k, k <> wid -> rval (fold_left read_record rs rd) k = rval rd k /\
                            rname (fold_left read_record rs rd) k = rname rd k)).
  { intros wid Hwid. exists [RName (name m); RSet wid (Value m)].
    split; [|split; [|split; [|split]]].
    - cbn [opt_buf map concat_str record_string].
      rewrite (writeValue_app wid (Value m) (writeName (Name m) (opt_buf enc))),
              (writeName_app (Name m) (opt_buf enc)), str_app_nil, str_app_assoc.
      reflexivity.
    - constructor; [exact Hlen|]. constructor; [|constructor].
      cbn [record_ok]. unfold is_int64, Value in *. lia.
    - reflexivity.
    - intros _. cbn [fold_left read_record rval rname pending wireID lastLogVal name].
      rewrite Z.eqb_refl. split; reflexivity.
    - intros k Hk. cbn [fold_left read_record rval rname pending].
      rewrite (proj2 (Z.eqb_neq k wid) Hk). split; reflexivity. }
  destruct (Z.eqb_spec (wireID m) 0) as [Hw0|Hw0].
  - rewrite (proj1 Hn Hw0), (wrap64_id (n + 1)) by (specialize (Hb Hw0); unfold is_int64; lia).
    cbv beta iota. apply Hrename. specialize (Hb Hw0). cbn [wireID]. lia.
  - assert (Hs : lastNamed m <> None) by (intros E; apply Hw0, Hn, E).
    destruct (lastNamed m) as [t|] eqn:El; [|contradiction]. cbv beta iota.
    destruct (time_Sub now t >? metricLogNameFrequency).
    + apply Hrename. cbn [wireID]. lia.
    + destruct (Ha Hw0) as [Hav Han].
      exists [RIncr (wireID m) (wrap64 (Value m - lastLogVal m))].
      split; [|split; [|split; [|split]]].
      * cbn [opt_buf map concat_str record_string].
        rewrite (writeDelta_app (wireID m) _ (opt_buf enc)), str_app_nil. reflexivity.
      * constructor; [|constructor]. cbn [record_ok].
        split; [unfold is_int64; lia | apply wrap64_range].
      * exact Hp.
      * intros _. cbn [fold_left read_record rval rname pending wireID lastLogVal name].
        rewrite Z.eqb_refl, Hav, wrap64_add_r.
        replace (lastLogVal m + (Value m - lastLogVal m)) with (Value m) by ring.
        rewrite wrap64_id by exact Hv. split; [reflexivity | exact Han].
      * intros k Hk. cbn [fold_left read_record rval rname pending wireID].
        rewrite (proj2 (Z.eqb_neq k (wireID m)) Hk). split; reflexivity.
Qed.

Lemma Forall2_In_r {A B} (R : A -> B -> Prop) l l' y :
  Forall2 R l l' -> In y l' -> exists x, In x l /\ R x y.
Proof.
  induction 1 as [|x y' l l' Hxy _ IH]; [intros []|].
  intros [<-|Hy]; [exists x; split; [left; reflexivity | exact Hxy]|].
  destruct (IH Hy) as (x' & H1 & H2). exists x'. split; [right; exact H1 | exact H2].
Qed.

Lemma wids_In w ms : In w (wids ms) <-> w <> 0 /\ exists m, In m ms /\ wireID m = w.
Proof.
  unfold wids. rewrite filter_In, in_map_iff, negb_true_iff, Z.eqb_neq.
  split.
  - intros [(m & H1 & H2) H3]. split; [exact H3 | exists m; auto].
  - intros [H3 (m & H1 & H2)]. split; [exists m; auto | exact H3].
Qed.

Lemma wids_cons_NoDup m ms : NoDup (wids (m :: ms)) -> NoDup (wids ms) /\ (wireID m <> 0 -> ~ In (wireID m) (wids ms)).
Proof.
  unfold wids. cbn [map filter]. destruct (Z.eqb_spec (wireID m) 0) as [E|E]; cbn [negb].
  - intros H. split; [exact H | contradiction].
  - intros H. inversion H; subst. auto.
Qed.

Lemma encode_loop_reader now ms : forall enc n rd,
  0 <= n -> n + Z.of_nat (zeros ms) < 2 ^ 63 ->
  Forall (fun m => int64_vals m /\ Z.of_nat (String.length (name m)) < 2 ^ 63 /\ named_ok m /\
                   0 <= wireID m <= n /\ agree rd m) ms ->
  NoDup (wids ms) -> pending rd = None ->
  let '(ms', enc', _) := encode_loop now ms enc n in
  exists rs, opt_buf enc' = (opt_buf enc ++ concat_str (map record_string rs))%string /\
    Forall record_ok rs /\
    pending (fold_left read_record rs rd) = None /\
    Forall (agree (fold_left read_record rs rd)) ms' /\
    (forall k, ~ In k (map wireID ms') -> rval (fold_left read_record rs rd) k = rval rd k /\
                                         rname (fold_left read_record rs rd) k = rname rd k).
Proof.
  induction ms as [|m ms IH]; intros enc n rd Hn Hb Hall Hnd Hp; cbn [encode_loop].
  { exists []. cbn [map concat_str fold_left].
    split; [symmetry; apply str_app_nil|]. split; [constructor|].
    split; [exact Hp|]. split; [constructor|]. intros; split; reflexivity. }
  rewrite zeros_cons in Hb. inversion Hall as [|? ? (Hv & Hlen & Hok & Hw & Ha) Hall']; subst.
  apply wids_cons_NoDup in Hnd as [Hnd Hnotin].
  assert (Hb1 : wireID m = 0 -> n + 1 < 2 ^ 63)
    by (intros Hw0; rewrite Hw0 in Hb; cbn in Hb; lia).
  pose proof (encode_metric_wire now m enc n Hn Hb1) as Hwm.
  pose proof (encode_metric_reader now m enc n rd Hv Hlen Hok Hw
                ltac:(destruct (wireID m =? 0); lia) Hb1 Hp Ha) as Hrm.
  destruct (encode_metric now m enc n) as [[m' enc1] n1].
  destruct Hrm as (rs1 & Ho1 & Hok1 & Hp1 & Ha1 & Hf1).
  set (rd1 := fold_left read_record rs1 rd) in *.
  assert (Hwm' : (wireID m' = wireID m /\ n1 = n) \/ (wireID m = 0 /\ wireID m' = n + 1 /\ n1 = n + 1)).
  { destruct Hwm as (_ & [(_ & H1 & H2) | (H0 & _ & H1 & H2)]); [left | right]; auto. }
  assert (Hn1 : n <= n1 /\ n1 + Z.of_nat (zeros ms) < 2 ^ 63 /\ wireID m' <= n1).
  { destruct Hwm' as [(H1 & ->) | (H0 & H1 & ->)].
    - rewrite H1. destruct (wireID m =? 0); lia.
    - rewrite H0 in Hb. cbn in Hb. lia. }
  assert (Hsep : forall w, In w (wids ms) \/ n1 < w -> wireID m' <> 0 -> w <> wireID m').
  { intros w Hw' Hnz E. subst w. destruct Hw' as [Hin | Hlt]; [|lia].
    destruct Hwm' as [(H1 & _) | (_ & H1 & _)].
    - rewrite H1 in Hin, Hnz. exact (Hnotin Hnz Hin).
    - apply wids_In in Hin as (_ & m0 & Hm0 & Hw0).
      rewrite Forall_forall in Hall'. destruct (Hall' m0 Hm0) as (_ & _ & _ & Hr0 & _). lia. }
  assert (Hall1 : Forall (fun m0 => int64_vals m0 /\ Z.of_nat (String.length (name m0)) < 2 ^ 63 /\
                     named_ok m0 /\ 0 <= wireID m0 <= n1 /\ agree rd1 m0) ms).
  { rewrite Forall_forall in *. intros m0 Hm0.
    destruct (Hall' m0 Hm0) as (H1 & H2 & H3 & H4 & H5).
    split; [exact H1|]. split; [exact H2|]. split; [exact H3|]. split; [lia|].
    intros Hnz. assert (Hne : wireID m0 <> wireID m').
    { destruct (Z.eq_dec (wireID m') 0) as [E|E]; [congruence|].
      apply Hsep; [left; apply wids_In; eauto | exact E]. }
    destruct (Hf1 (wireID m0) Hne) as [-> ->]. apply H5, Hnz. }
  specialize (IH enc1 n1 rd1 ltac:(lia) ltac:(lia) Hall1 Hnd Hp1).
  pose proof (encode_loop_wire now ms enc1 n1 ltac:(lia) ltac:(lia)) as Hwl.
  destruct (encode_loop now ms enc1 n1) as [[ms'' enc'] n'].
  destruct IH as (rs2 & Ho2 & Hok2 & Hp2 & Ha2 & Hf2).
  destruct Hwl as (k & _ & _ & _ & Hfw).
  exists (rs1 ++ rs2). rewrite fold_left_app. change (fold_left read_record rs1 rd) with rd1.
  split; [|split; [|split; [|split]]].
  - rewrite Ho2, Ho1, map_app, concat_str_app, str_app_assoc. reflexivity.
  - apply Forall_app. split; assumption.
  - exact Hp2.
  - constructor; [|exact Ha2].
    intros Hnz. assert (Hnin : ~ In (wireID m') (map wireID ms'')).
    { intros Hin. apply in_map_iff in Hin as (m'' & E & Hm'').
      destruct (Forall2_In_r _ _ _ _ Hfw Hm'') as (m0 & Hm0 & _ & _ & [E0 | Hlt] & _).
      - apply (Hsep (wireID m0)); [left; apply wids_In; split; [congruence | eauto] | exact Hnz | congruence].
      - apply (Hsep (wireID m'')); [right; lia | exact Hnz | exact E]. }
    destruct (Hf2 _ Hnin) as [-> ->]. apply Ha1, Hnz.
  - intros w Hw'. cbn [map In] in Hw'.
    destruct (Hf2 w (fun H => Hw' (or_intror H))) as [-> ->].
    apply Hf1. intros E. apply Hw'. left. symmetry. exact E.
Qed.

Lemma local_step_step st st' : local_step st st' -> step st st'.
Proof.
  destruct 1.
  - eapply step_publish; eauto.
  - apply step_add; assumption.
  - apply step_set; assumption.
  - eapply step_metrics; eauto.
  - eapply step_write; eauto.
  - apply step_reorder; assumption.
Qed.

Lemma session_reachable st rd : session st rd -> reachable st.
Proof.
  induction 1 as [| st rd now out st' _ IH He | st rd st' _ IH Hl].
  - apply reach_init.
  - eapply reach_step; [exact IH | eapply step_encode; exact He].
  - eapply reach_step; [exact IH | apply local_step_step, Hl].
Qed.

Lemma step_names st st' : step st st' -> incl (map name (metrics st)) (map name (metrics st')).
Proof.
  destruct 1 as [st st' nm t x Hx Hpub | st nm n Hn' | st nm x Hx | st st' l Hm
                | st st' out Hw | st st' now out He | st ms Hperm].
  - apply publish_step_cases in Hpub as (_ & _ & ->). cbn [metrics]. rewrite map_app.
    apply incl_appl, incl_refl.
  - rewrite update_metric_names by reflexivity. apply incl_refl.
  - rewrite update_metric_names by reflexivity. apply incl_refl.
  - apply Metrics_cases in Hm as [(_ & _ & ->) | (_ & _ & ->)]; apply incl_refl.
  - apply Write_cases in Hw as (l & Hm & _).
    apply Metrics_cases in Hm as [(_ & _ & ->) | (_ & _ & ->)]; apply incl_refl.
  - apply EncodeLogTailMetricsDelta_cases in He as [(-> & _) | (_ & enc & E & _ & _)]; [apply incl_refl|].
    pose proof (encode_loop_shape now (metrics st) None (numWireID st)) as Hsh. rewrite E in Hsh.
    rewrite (Forall2_map_name _ _ Hsh). apply incl_refl.
  - intros x Hx. apply (Permutation_in _ (Permutation_map name Hperm)), Hx.
Qed.

Lemma names_bound_back st st' :
  step st st' ->
  Forall (fun m => Z.of_nat (String.length (name m)) < 2 ^ 63) (metrics st') ->
  Forall (fun m => Z.of_nat (String.length (name m)) < 2 ^ 63) (metrics st).
Proof.
  intros Hs H. rewrite Forall_forall in *. intros m Hm.
  destruct (in_map_iff name (metrics st') (name m)) as [Hi _].
  destruct (Hi (step_names st st' Hs _ (in_map name _ _ Hm))) as (m' & E & Hm').
  rewrite <- E. apply H, Hm'.
Qed.

Lemma read_frame_empty rd : read_frame rd EmptyString = rd.
Proof. reflexivity. Qed.

Lemma session_Inv st rd :
  session st rd -> Z.of_nat (List.length (metrics st)) < 2 ^ 63 ->
  Forall (fun m => Z.of_nat (String.length (name m)) < 2 ^ 63) (metrics st) ->
  pending rd = None /\ Forall (agree rd) (metrics st).
Proof.
  induction 1 as [| st rd now out st' Hs IH He | st rd st' Hs IH Hl]; intros Hb Hnm.
  - split; [reflexivity | constructor].
  - assert (Hstep : step st st') by (eapply step_encode; exact He).
    pose proof (step_length st st' Hstep) as Hlen.
    pose proof (names_bound_back st st' Hstep Hnm) as Hnm0.
    destruct (IH ltac:(lia) Hnm0) as [Hp Ha].
    pose proof (session_reachable st rd Hs) as Hr.
    destruct (rate_limited now (lastDelta st)) eqn:Hrl.
    { apply EncodeLogTailMetricsDelta_cases in He as [(-> & ->) | (Hrl' & _)]; [|congruence].
      rewrite read_frame_empty. split; assumption. }
    destruct (Encode_not_limited now st out st' Hrl He) as (enc & E & -> & _).
    destruct (reachable_Inv_registry st Hr) as (_ & _ & Hv & _).
    pose proof (reachable_named_ok st Hr ltac:(lia)) as Hok.
    pose proof (reachable_Inv_wire st Hr ltac:(lia)) as Hi.
    pose proof (Inv_wire_range st Hi) as Hrange.
    pose proof (Inv_wire_count st Hi) as Hc. pose proof (wids_zeros_length (metrics st)) as Hz.
    destruct Hi as [Hn Hperm].
    assert (Hnd : NoDup (wids (metrics st)))
      by (apply (Permutation_NoDup (Permutation_sym Hperm)), zseq_NoDup).
    assert (Hall : Forall (fun m => int64_vals m /\ Z.of_nat (String.length (name m)) < 2 ^ 63 /\
                     named_ok m /\ 0 <= wireID m <= numWireID st /\ agree rd m) (metrics st)).
    { rewrite Forall_forall in *. intros m Hm. auto 10. }
    pose proof (encode_loop_reader now (metrics st) None (numWireID st) rd Hn ltac:(lia) Hall Hnd Hp)
      as Hl.
    rewrite E in Hl. destruct Hl as (rs & Ho & Hok' & Hp' & Ha' & _).
    cbn [opt_buf] in Ho. rewrite str_app_empty_l in Ho.
    unfold read_frame. rewrite Ho, decode_frame_concat by exact Hok'. split; assumption.
  - pose proof (local_step_step st st' Hl) as Hstep.
    pose proof (step_length st st' Hstep) as Hlen.
    pose proof (names_bound_back st st' Hstep Hnm) as Hnm0.
    destruct (IH ltac:(lia) Hnm0) as [Hp Ha]. split; [exact Hp|].
    destruct Hl as [st st' nm t x Hx Hpub | st nm n Hn' | st nm x Hx | st st' l Hm
                   | st st' out Hw | st ms Hperm].
    + apply publish_step_cases in Hpub as (_ & _ & ->). cbn [metrics].
      apply Forall_app. split; [exact Ha|]. constructor; [|constructor].
      intros H. cbn in H. contradiction.
    + unfold update_metric, set_metrics. cbn [metrics]. apply Forall_map.
      eapply Forall_impl; [|exact Ha]. intros m Hm. destruct (String.eqb (name m) nm); exact Hm.
    + unfold update_metric, set_metrics. cbn [metrics]. apply Forall_map.
      eapply Forall_impl; [|exact Ha]. intros m Hm. destruct (String.eqb (name m) nm); exact Hm.
    + apply Metrics_cases in Hm as [(_ & _ & ->) | (_ & _ & ->)]; exact Ha.
    + apply Write_cases in Hw as (l & Hm & _).
      apply Metrics_cases in Hm as [(_ & _ & ->) | (_ & _ & ->)]; exact Ha.
    + exact (Forall_perm _ _ _ Hperm Ha).
Qed.

(** X13: a reader that receives every frame the encoder returns, in
    order, holds at every point of the execution (fewer than [2^63]
    metrics, names shorter than [2^63] bytes), for the wireID of each
    metric that has one, the value last sent for that metric and its
    name. *)
Theorem reader_tracks_last_sent (st : state) (rd : reader) :
  session st rd -> Z.of_nat (List.length (metrics st)) < 2 ^ 63 ->
  Forall (fun m => Z.of_nat (String.length (name m)) < 2 ^ 63) (metrics st) ->
  Forall (fun m => wireID m <> 0 ->
                   rval rd (wireID m) = lastLogVal m /\ rname rd (wireID m) = Some (name m))
    (metrics st).
Proof. intros Hs Hb Hn. apply (session_Inv st rd Hs Hb Hn). Qed.

(** X14: right after reading a frame from an encode call that was not
    rate-limited, such a reader knows every metric's current value: under
    the metric's wireID it holds the value and the name, and a metric
    without a wireID has the value 0. *)
Theorem reader_current_after_frame (st st' : state) (rd : reader) (now : Z) (out : string) :
  session st rd -> Z.of_nat (List.length (metrics st')) < 2 ^ 63 ->
  Forall (fun m => Z.of_nat (String.length (name m)) < 2 ^ 63) (metrics st') ->
  rate_limited now (lastDelta st) = false ->
  EncodeLogTailMetricsDelta now st = Ok out st' ->
  Forall (fun m =>
            (wireID m <> 0 -> rval (read_frame rd out) (wireID m) = Value m /\
                              rname (read_frame rd out) (wireID m) = Some (name m)) /\
            (wireID m = 0 -> Value m = 0))
    (metrics st').
Proof.
  intros Hs Hb Hn Hrl He.
  assert (Hs' : session st' (read_frame rd out)) by (eapply session_encode; eauto).
  destruct (session_Inv st' _ Hs' Hb Hn) as [_ Ha].
  pose proof (session_reachable st rd Hs) as Hr.
  destruct (reachable_Inv_registry st Hr) as (_ & _ & Hv & _).
  destruct (Encode_not_limited now st out st' Hrl He) as (enc & E & _ & _).
  pose proof (encode_loop_syncs now (metrics st) None (numWireID st) Hv) as Hsync. rewrite E in Hsync.
  pose proof (reachable_named_ok st' (session_reachable st' _ Hs') Hb) as Hok.
  rewrite Forall_forall in *. intros m Hm. unfold Value. rewrite (Hsync m Hm).
  split; [apply Ha, Hm | apply Hok, Hm].
Qed.

Lemma session_wire_demo : session wire_demo_before reader_init.
Proof.
  eapply session_local; [eapply session_local; [apply session_init|] |].
  - apply (local_publish _ _ "b_total" TypeCounter 0); [unfold is_int64; lia | vm_compute; reflexivity].
  - apply (local_publish _ _ "a_gauge" TypeGauge 7); [unfold is_int64; lia | vm_compute; reflexivity].
Qed.

Lemma reader_tracks_last_sent_witness :
  Forall (fun m => wireID m <> 0 ->
                   rval (read_frame reader_init "N0ea_gaugeS020e") (wireID m) = lastLogVal m /\
                   rname (read_frame reader_init "N0ea_gaugeS020e") (wireID m) = Some (name m))
    (metrics wire_demo_after).
Proof.
  apply reader_tracks_last_sent.
  - eapply session_encode; [apply session_wire_demo | vm_compute; reflexivity].
  - cbn. lia.
  - repeat constructor; cbn; lia.
Defined.

Lemma reader_current_after_frame_witness :
  Forall (fun m =>
            (wireID m <> 0 -> rval (read_frame reader_init "N0ea_gaugeS020e") (wireID m) = Value m /\
                              rname (read_frame reader_init "N0ea_gaugeS020e") (wireID m) = Some (name m)) /\
            (wireID m = 0 -> Value m = 0))
    (metrics wire_demo_after).
Proof.
  apply (reader_current_after_frame wire_demo_before wire_demo_after reader_init (20 * Second)).
  - apply session_wire_demo.
  - cbn. lia.
  - repeat constructor; cbn; lia.
  - reflexivity.
  - vm_compute. reflexivity.
Defined.

Lemma dec_digit_val_digit d :
  0 <= d < 10 -> dec_digit_val (ascii_of_nat (48 + Z.to_nat d)) = Some d.
Proof.
  intros Hd.
  assert (d = 0 \/ d = 1 \/ d = 2 \/ d = 3 \/ d = 4 \/ d = 5 \/ d = 6 \/ d = 7 \/ d = 8 \/ d = 9)
    as Hc by lia.
  repeat destruct Hc as [-> | Hc]; [reflexivity ..|]. subst. reflexivity.
Qed.

Lemma digit_not_minus d : 0 <= d < 10 -> ascii_of_nat (48 + Z.to_nat d) <> "-"%char.
Proof.
  intros Hd.
  assert (d = 0 \/ d = 1 \/ d = 2 \/ d = 3 \/ d = 4 \/ d = 5 \/ d = 6 \/ d = 7 \/ d = 8 \/ d = 9)
    as Hc by lia.
  repeat destruct Hc as [-> | Hc]; [discriminate ..|]. subst. discriminate.
Qed.

Lemma digits_parse fuel : forall n acc k,
  0 <= n < 10 ^ Z.of_nat fuel ->
  exists j, 0 <= j /\ parse_digits (digits fuel n acc) k = parse_digits acc (k * 10 ^ j + n).
Proof.
  induction fuel as [|fuel IH]; intros n acc k Hn.
  - exists 0. split; [lia|]. cbn in Hn. cbn [digits]. f_equal. lia.
  - cbn [digits]. pose proof (Z.mod_pos_bound n 10 ltac:(lia)) as Hm.
    assert (Hstep : forall k', parse_digits (String (ascii_of_nat (48 + Z.to_nat (n mod 10))) acc) k' =
                               parse_digits acc (k' * 10 + n mod 10)).
    { intros k'. cbn [parse_digits]. rewrite dec_digit_val_digit by exact Hm. reflexivity. }
    destruct (Z.ltb_spec n 10) as [Hlt|Hge].
    + exists 1. split; [lia|]. rewrite Hstep, (Z.mod_small n 10) by lia.
      replace (k * 10 ^ 1) with (k * 10) by ring. reflexivity.
    + assert (Hq : 0 <= n / 10 < 10 ^ Z.of_nat fuel).
      { split; [apply Z.div_pos; lia|]. apply Z.div_lt_upper_bound; [lia|].
        rewrite Nat2Z.inj_succ, Z.pow_succ_r in Hn by lia. lia. }
      destruct (IH (n / 10) (String (ascii_of_nat (48 + Z.to_nat (n mod 10))) acc) k Hq)
        as (j & Hj0 & Hj).
      exists (Z.succ j). split; [lia|].
      rewrite Hj, Hstep, Z.pow_succ_r by assumption.
      rewrite (Z.div_mod n 10) at 3 by lia. f_equal. ring.
Qed.

Lemma digits_head fuel : forall n acc,
  (exists c s, acc = String c s /\ c <> "-"%char) ->
  exists c s, digits fuel n acc = String c s /\ c <> "-"%char.
Proof.
  induction fuel as [|fuel IH]; intros n acc Hacc; cbn [digits]; [exact Hacc|].
  assert (Hd : exists c s, String (ascii_of_nat (48 + Z.to_nat (n mod 10))) acc = String c s /\
                           c <> "-"%char).
  { do 2 eexists. split; [reflexivity|]. apply digit_not_minus, Z.mod_pos_bound. lia. }
  destruct (n <? 10); [exact Hd | apply IH, Hd].
Qed.

Lemma digits_S_head fuel n acc :
  exists c s, digits (S fuel) n acc = String c s /\ c <> "-"%char.
Proof.
  cbn [digits].
  assert (Hd : exists c s, String (ascii_of_nat (48 + Z.to_nat (n mod 10))) acc = String c s /\
                           c <> "-"%char).
  { do 2 eexists. split; [reflexivity|]. apply digit_not_minus, Z.mod_pos_bound. lia. }
  destruct (n <? 10); [exact Hd | apply digits_head, Hd].
Qed.

(** X15: the decimal text the exposition writes for a value ([fmt_int],
    the [%v] of [fmt.Fprintf]) reads back as that value, for every int64:
    an optional '-' followed by the decimal digits. *)
Theorem fmt_int_roundtrip (n : Z) : is_int64 n -> parse_int (fmt_int n) = Some n.
Proof.
  intros Hn. unfold is_int64 in Hn. unfold fmt_int.
  assert (Hbig : 2 ^ 63 < 10 ^ Z.of_nat 20) by (cbn; lia).
  destruct (Z.ltb_spec n 0) as [Hneg|Hpos].
  - cbn [parse_int]. rewrite Ascii.eqb_refl.
    destruct (digits_parse 20 (- n) EmptyString 0 ltac:(lia)) as (j & _ & ->).
    cbn [parse_digits option_map]. f_equal; lia.
  - destruct (digits_S_head 19 n EmptyString) as (c & s & Hcs & Hc).
    destruct (digits_parse 20 n EmptyString 0 ltac:(lia)) as (j & _ & Hj).
    rewrite Hcs in *. cbn [parse_int].
    destruct (Ascii.eqb_spec c "-"%char) as [E|E]; [contradiction|].
    rewrite Hj. cbn [parse_digits]. f_equal; lia.
Qed.

Lemma fmt_int_roundtrip_witness : parse_int (fmt_int (- 2 ^ 63)) = Some (- 2 ^ 63).
Proof. apply fmt_int_roundtrip. unfold is_int64. lia. Defined.

(** X16: after a call to [Metrics] the sorted cache is clean, and calling
    [Metrics] again returns the same list and changes nothing. *)
Theorem Metrics_idempotent (st st' : state) (l : list string) :
  Metrics st = Ok l st' -> sortedDirty st' = false /\ Metrics st' = Ok l st'.
Proof.
  intros Hm. apply Metrics_cases in Hm as [(_ & -> & ->) | (Hd & -> & ->)].
  - split; reflexivity.
  - split; [exact Hd|]. unfold Metrics, bind, get, ret. rewrite Hd. reflexivity.
Qed.

Lemma Encode_keeps_values_witness :
  map (fun m => (name m, typ m, v m)) (metrics two_encoded) =
  map (fun m => (name m, typ m, v m)) [mkMetric 3 "b_total" TypeCounter 0 None 0;
                                        mkMetric 7 "a_gauge" TypeGauge 0 None 0] /\
  sortedDirty two_encoded = true /\ sorted two_encoded = [].
Proof.
  apply (Encode_keeps_values (20 * Second)
           (mkState [mkMetric 3 "b_total" TypeCounter 0 None 0;
                     mkMetric 7 "a_gauge" TypeGauge 0 None 0] 0 None true [])
           two_encoded "N0eb_totalS0206N0ea_gaugeS040e"%string).
  vm_compute. reflexivity.
Defined.

Lemma Metrics_idempotent_witness :
  sortedDirty (mkState (metrics two_reordered) 0 None false ["a_gauge"; "b_total"]%string) = false /\
  Metrics (mkState (metrics two_reordered) 0 None false ["a_gauge"; "b_total"]%string) =
    Ok ["a_gauge"; "b_total"]%string
       (mkState (metrics two_reordered) 0 None false ["a_gauge"; "b_total"]%string).
Proof.
  apply (Metrics_idempotent two_reordered). vm_compute. reflexivity.
Defined.
